(** * The exercise lifecycle controller and the event configuration store

    A shallow embedding of [exercise/exercise.go] and of the hook machinery
    of [store/event.go].  The controller is stateful and talks to three
    external collaborators (the docker host, the exercise network, the
    VirtualBox library) and to the instances it owns; every operation is
    modelled as a computation that threads the controller's fields and the
    outside world, may stop early with a Go [error] or a run-time panic, and
    emits the list of collaborator calls it made, in the order it made them. *)

From Stdlib Require Import String Ascii ZArith List Bool Lia DecimalString.
From stdpp Require Import base tactics list strings.

Set Default Proof Using "Type".

(** ** Go values shared by every package *)

(** The result of a Go function with signature [(T, error)]: the value is
    only looked at when the error is nil. *)
Inductive Res (E A : Type) : Type :=
| ROk (a : A)
| RErr (err : E).
Arguments ROk {E A} a.
Arguments RErr {E A} err.

(** ** package virtual *)
Module virtual.

(** [virtual.Instance]: what the controller may do with a machine.  Each
    method acts on the outside world [W] and returns a Go [error]
    ([None] is nil). *)
Class Instance (W Error T : Type) := {
  Start : T -> W -> option Error * W;
  Stop : T -> W -> option Error * W;
  Close : T -> W -> option Error * W
}.

End virtual.

(** ** package docker *)
Module docker.

(** [docker.ContainerConfig].  The struct is declared outside the files at
    hand; the controller only overwrites [DNS] and passes the rest on. *)
Record ContainerConfig := {
  Image : string;
  EnvVars : list (string * string);
  DNS : list string
}.

Definition with_DNS (spec : ContainerConfig) (dns : list string) : ContainerConfig :=
  {| Image := Image spec; EnvVars := EnvVars spec; DNS := dns |}.

(** [*docker.Network]: [Connect(c, ip...)] with the variadic address as an
    option, [FormatIP] and [Interface]. *)
Class Network (W Error Container : Type) := {
  Connect : Container -> option Z -> W -> Res Error Z * W;
  FormatIP : Z -> string;
  Interface : string
}.

End docker.

(** ** package vbox *)
Module vbox.

(** A [vbox.VMOpt]; the controller builds exactly one kind. *)
Inductive VMOpt :=
| SetBridge (iface : string).

(** [vbox.Library]. *)
Class Library (W Error VM : Type) := {
  GetCopy : string -> list VMOpt -> W -> Res Error VM * W
}.

End vbox.

(** ** package exercise *)
Module exercise.

(** [RecordConfig]: a DNS record template ([Type] is spelled [RType]). *)
Record RecordConfig := {
  RType : string;
  Name : string;
  RData : string
}.

(** An element of [store.Exercise.VBoxConfig]; only [Image] is read. *)
Record VboxConfig := {
  Image : string
}.

(** What the controller reads of [*store.Exercise]: the two parallel slices
    returned by [ContainerOpts()] and the [VBoxConfig] field. *)
Record Exercise := {
  ContainerOpts : list docker.ContainerConfig * list (list RecordConfig);
  VBoxConfig : list VboxConfig
}.

(** [DockerHost]. *)
Class DockerHost (W Error Container : Type) := {
  CreateContainer : docker.ContainerConfig -> W -> Res Error Container * W
}.

(** The slice accesses that can go out of range in [Create]. *)
Inductive Access :=
| IpsAt (i : nat)
| RecordsAt (i : nat).

Section Controller.

Context {W Error Container VM : Type}.
Context {container_instance : virtual.Instance W Error Container}.
Context {vm_instance : virtual.Instance W Error VM}.
Context {dockerHost : DockerHost W Error Container}.
Context {net : docker.Network W Error Container}.
Context {lib : vbox.Library W Error VM}.

(** The dynamic type behind a [virtual.Instance] in the machine list. *)
Inductive Machine :=
| ContainerMachine (c : Container)
| VMMachine (vm : VM).

Definition machine_Start (m : Machine) : W -> option Error * W :=
  match m with
  | ContainerMachine c => virtual.Start c
  | VMMachine vm => virtual.Start vm
  end.

Definition machine_Stop (m : Machine) : W -> option Error * W :=
  match m with
  | ContainerMachine c => virtual.Stop c
  | VMMachine vm => virtual.Stop vm
  end.

Definition machine_Close (m : Machine) : W -> option Error * W :=
  match m with
  | ContainerMachine c => virtual.Close c
  | VMMachine vm => virtual.Close vm
  end.

(** The fields of [exercise] that the lifecycle operations read or write.
    [ips] is [None] for the nil slice, which [Create] tests for.
    [net], [dockerHost] and [lib] are the instances above; [flags] is
    touched by no operation. *)
Record exercise := {
  conf : Exercise;
  machines : list Machine;
  ips : option (list Z);
  dnsIP : string;
  dnsRecords : list RecordConfig
}.

Definition set_machines (ms : list Machine) (e : exercise) : exercise :=
  {| conf := conf e; machines := ms; ips := ips e;
     dnsIP := dnsIP e; dnsRecords := dnsRecords e |}.

Definition set_ips (t : option (list Z)) (e : exercise) : exercise :=
  {| conf := conf e; machines := machines e; ips := t;
     dnsIP := dnsIP e; dnsRecords := dnsRecords e |}.

Definition set_dnsRecords (rs : list RecordConfig) (e : exercise) : exercise :=
  {| conf := conf e; machines := machines e; ips := ips e;
     dnsIP := dnsIP e; dnsRecords := rs |}.

(** One call made to a collaborator or to an instance, with what it
    returned. *)
Inductive Event :=
| EvCreateContainer (spec : docker.ContainerConfig) (r : Res Error Container)
| EvConnect (c : Container) (ip : option Z) (r : Res Error Z)
| EvGetCopy (image : string) (opts : list vbox.VMOpt) (r : Res Error VM)
| EvStart (m : Machine) (r : option Error)
| EvStop (m : Machine) (r : option Error)
| EvClose (m : Machine) (r : option Error).

(** How a method ends: [Ret] is normal completion, [Fail] is
    [return err], [Panic] is an index out of range. *)
Inductive Outcome (A : Type) : Type :=
| Ret (a : A)
| Fail (err : Error)
| Panic (at_ : Access).
Arguments Ret {A} a.
Arguments Fail {A} err.
Arguments Panic {A} at_.

Definition M (A : Type) : Type :=
  exercise -> W -> Outcome A * exercise * W * list Event.

(** The four components of a finished run. *)
Definition outcome_of {A} (r : Outcome A * exercise * W * list Event) : Outcome A :=
  r.1.1.1.

Definition state_of {A} (r : Outcome A * exercise * W * list Event) : exercise :=
  r.1.1.2.

Definition world_of {A} (r : Outcome A * exercise * W * list Event) : W :=
  r.1.2.

Definition calls_of {A} (r : Outcome A * exercise * W * list Event) : list Event :=
  r.2.

Definition ret {A} (a : A) : M A :=
  fun e w => (Ret a, e, w, []).

Definition panic {A} (at_ : Access) : M A :=
  fun e w => (Panic at_, e, w, []).

Definition bind {A B} (m : M A) (k : A -> M B) : M B :=
  fun e w =>
    match m e w with
    | (Ret a, e1, w1, l1) =>
        let '(o, e2, w2, l2) := k a e1 w1 in (o, e2, w2, l1 ++ l2)
    | (Fail err, e1, w1, l1) => (Fail err, e1, w1, l1)
    | (Panic p, e1, w1, l1) => (Panic p, e1, w1, l1)
    end.

Definition get : M exercise :=
  fun e w => (Ret e, e, w, []).

Definition modify (f : exercise -> exercise) : M unit :=
  fun e w => (Ret tt, f e, w, []).

(** [x, err := call(...); if err != nil { return err }] *)
Definition try {A} (call : W -> Res Error A * W) (ev : Res Error A -> Event) : M A :=
  fun e w =>
    let '(r, w1) := call w in
    (match r with ROk a => Ret a | RErr err => Fail err end, e, w1, [ev r]).

(** [if err := call(); err != nil { return err }] *)
Definition check (call : W -> option Error * W) (ev : option Error -> Event) : M unit :=
  fun e w =>
    let '(r, w1) := call w in
    (match r with None => Ret tt | Some err => Fail err end, e, w1, [ev r]).

Notation "x <- m ;; k" := (bind m (fun x => k))
  (at level 100, m at next level, right associativity).
Notation "m ;;; k" := (bind m (fun _ => k))
  (at level 100, right associativity).

(** [append] on a slice that may be nil. *)
Definition append_ip (t : option (list Z)) (d : Z) : option (list Z) :=
  match t with
  | None => Some [d]
  | Some l => Some (l ++ [d])
  end.

(** [if record.RData == "" { record.RData = ipaddr }] on the loop's copy. *)
Definition fill_RData (ipaddr : string) (record : RecordConfig) : RecordConfig :=
  if String.eqb (RData record) "" then
    {| RType := RType record; Name := Name record; RData := ipaddr |}
  else record.

(** The inner loop of [Create] (lines 79-84). *)
Fixpoint add_records (ipaddr : string) (rs : list RecordConfig) : M unit :=
  match rs with
  | [] => ret tt
  | record :: rest =>
      modify (fun e => set_dnsRecords (dnsRecords e ++ [fill_RData ipaddr record]) e) ;;;
      add_records ipaddr rest
  end.

(** The body of the first loop of [Create] up to [machines = append(...)]
    (lines 50-84), for the container at position [i]: it yields the new
    container and the new value of [newIps]. *)
Definition create_container (i : nat) (spec : docker.ContainerConfig)
    (records : list (list RecordConfig)) (newIps : option (list Z))
    : M (Container * option (list Z)) :=
  e <- get ;;
  let spec := docker.with_DNS spec [dnsIP e] in
  c <- try (CreateContainer spec) (EvCreateContainer spec) ;;
  e <- get ;;
  r <- match ips e with
       | Some t =>
           match t !! i with
           | Some ip =>
               lastDigit <- try (docker.Connect c (Some ip)) (EvConnect c (Some ip)) ;;
               ret (lastDigit, newIps)
           | None => panic (IpsAt i)
           end
       | None =>
           lastDigit <- try (docker.Connect c None) (EvConnect c None) ;;
           ret (lastDigit, append_ip newIps lastDigit)
       end ;;
  let '(lastDigit, newIps) := r in
  let ipaddr := docker.FormatIP lastDigit in
  match records !! i with
  | Some rs => add_records ipaddr rs ;;; ret (c, newIps)
  | None => panic (RecordsAt i)
  end.

(** The first loop of [Create] (lines 49-87), from position [i] on. *)
Fixpoint create_containers (i : nat) (containers : list docker.ContainerConfig)
    (records : list (list RecordConfig))
    (machines : list Machine) (newIps : option (list Z))
    : M (list Machine * option (list Z)) :=
  match containers with
  | [] => ret (machines, newIps)
  | spec :: rest =>
      r <- create_container i spec records newIps ;;
      let '(c, newIps) := r in
      create_containers (S i) rest records (machines ++ [ContainerMachine c]) newIps
  end.

(** The second loop of [Create] (lines 89-98). *)
Fixpoint create_vms (specs : list VboxConfig) (machines : list Machine)
    : M (list Machine) :=
  match specs with
  | [] => ret machines
  | spec :: rest =>
      let opts := [vbox.SetBridge docker.Interface] in
      vm <- try (vbox.GetCopy (Image spec) opts) (EvGetCopy (Image spec) opts) ;;
      create_vms rest (machines ++ [VMMachine vm])
  end.

Definition Create : M unit :=
  e <- get ;;
  let '(containers, records) := ContainerOpts (conf e) in
  r <- create_containers 0 containers records [] None ;;
  let '(machines, newIps) := r in
  machines <- create_vms (VBoxConfig (conf e)) machines ;;
  e <- get ;;
  (match ips e with
   | None => modify (set_ips newIps)
   | Some _ => ret tt
   end) ;;;
  modify (set_machines machines) ;;;
  ret tt.

(** [for _, m := range ms { if err := m.op(); err != nil { return err } }],
    the loop shared by [Start], [Stop] and [Close]. *)
Fixpoint each (op : Machine -> W -> option Error * W)
    (ev : Machine -> option Error -> Event) (ms : list Machine) : M unit :=
  match ms with
  | [] => ret tt
  | m :: rest => check (op m) (ev m) ;;; each op ev rest
  end.

Definition Start : M unit :=
  e <- get ;;
  each machine_Start EvStart (machines e) ;;;
  ret tt.

Definition Stop : M unit :=
  e <- get ;;
  each machine_Stop EvStop (machines e) ;;;
  ret tt.

Definition Close : M unit :=
  e <- get ;;
  each machine_Close EvClose (machines e) ;;;
  modify (set_machines []) ;;;
  ret tt.

Definition Restart : M unit :=
  Stop ;;; Start ;;; ret tt.

Definition Reset : M unit :=
  Close ;;; Create ;;; Start ;;; ret tt.

(** *** What a run shows: projections of the call log *)

(** The containers the docker host handed out, in the order of the calls. *)
Fixpoint created (log : list Event) : list Container :=
  match log with
  | [] => []
  | EvCreateContainer _ (ROk c) :: rest => c :: created rest
  | _ :: rest => created rest
  end.

(** Every provisioning call: the spec it was given and what it returned. *)
Fixpoint create_calls (log : list Event)
    : list (docker.ContainerConfig * Res Error Container) :=
  match log with
  | [] => []
  | EvCreateContainer spec r :: rest => (spec, r) :: create_calls rest
  | _ :: rest => create_calls rest
  end.

(** The last octets the network bound, in the order of the calls. *)
Fixpoint connected (log : list Event) : list Z :=
  match log with
  | [] => []
  | EvConnect _ _ (ROk d) :: rest => d :: connected rest
  | _ :: rest => connected rest
  end.

(** Every connect call: the fixed octet it asked for, if any. *)
Fixpoint connect_requests (log : list Event) : list (option Z) :=
  match log with
  | [] => []
  | EvConnect _ ip _ :: rest => ip :: connect_requests rest
  | _ :: rest => connect_requests rest
  end.

(** The virtual machines the library handed out. *)
Fixpoint copied (log : list Event) : list VM :=
  match log with
  | [] => []
  | EvGetCopy _ _ (ROk vm) :: rest => vm :: copied rest
  | _ :: rest => copied rest
  end.

(** Every clone call: image, options and result. *)
Fixpoint copy_calls (log : list Event)
    : list (string * list vbox.VMOpt * Res Error VM) :=
  match log with
  | [] => []
  | EvGetCopy image opts r :: rest => (image, opts, r) :: copy_calls rest
  | _ :: rest => copy_calls rest
  end.

Definition is_stop (ev : Event) : bool :=
  match ev with EvStop _ _ => true | _ => false end.

Definition is_start (ev : Event) : bool :=
  match ev with EvStart _ _ => true | _ => false end.

(** The records one container contributes once its address is known. *)
Definition synth_one (d : Z) (rs : list RecordConfig) : list RecordConfig :=
  map (fill_RData (docker.FormatIP d)) rs.

(** The records a run contributes: the bound octets paired, position by
    position, with the record templates. *)
Definition synth (ds : list Z) (records : list (list RecordConfig)) : list RecordConfig :=
  concat (zip_with synth_one ds records).

(** [newIps] after appending the octets [ds] one by one. *)
Definition append_ips (t : option (list Z)) (ds : list Z) : option (list Z) :=
  fold_left append_ip ds t.

(** The provisioning calls of a run in which every container spec was
    served: spec [k], with the resolver injected, yielded container [k]. *)
Definition served (dns : string) (containers : list docker.ContainerConfig)
    (cs : list Container) : list (docker.ContainerConfig * Res Error Container) :=
  zip_with (fun spec c => (docker.with_DNS spec [dns], ROk c)) containers cs.

(** The clone calls of a run in which every VM spec was served. *)
Definition cloned (specs : list VboxConfig) (vms : list VM)
    : list (string * list vbox.VMOpt * Res Error VM) :=
  zip_with (fun spec vm => (Image spec, [vbox.SetBridge docker.Interface], ROk vm))
    specs vms.

(** A collaborator that cannot fail. *)
Definition docker_reliable : Prop :=
  forall spec w, exists c w1, CreateContainer spec w = (ROk c, w1).

Definition net_reliable : Prop :=
  forall c ip w, exists d w1, docker.Connect c ip w = (ROk d, w1).

Definition lib_reliable : Prop :=
  forall image opts w, exists vm w1, vbox.GetCopy image opts w = (ROk vm, w1).

(** The IP table is nil or has an entry for each of [n] containers. *)
Definition ips_cover (t : option (list Z)) (n : nat) : Prop :=
  match t with
  | None => True
  | Some l => n <= length l
  end.

(** *** One container *)

Lemma add_records_run ipaddr rs e w :
  add_records ipaddr rs e w
  = (Ret tt, set_dnsRecords (dnsRecords e ++ map (fill_RData ipaddr) rs) e, w, []).
Proof.
  revert e. induction rs as [|r rs IH]; intros e; simpl.
  - unfold ret, set_dnsRecords. rewrite app_nil_r. by destruct e.
  - unfold bind, modify. rewrite IH. unfold set_dnsRecords; simpl.
    by rewrite <- app_assoc.
Qed.

(** What [Connect] is asked for at position [i]: nothing on the first
    creation, the stored octet on reuse, and no call at all when the table
    is too short. *)
Definition request (e : exercise) (i : nat) : option (option Z) :=
  match ips e with
  | None => Some None
  | Some t => match t !! i with Some ip => Some (Some ip) | None => None end
  end.

Definition bump (e : exercise) (newIps : option (list Z)) (d : Z) : option (list Z) :=
  match ips e with
  | None => append_ip newIps d
  | Some _ => newIps
  end.

(** The five ways the body of the container loop can end. *)
Inductive container_run (i : nat) (spec : docker.ContainerConfig)
    (records : list (list RecordConfig)) (newIps : option (list Z))
    (e : exercise) (w : W)
    : Outcome (Container * option (list Z)) -> exercise -> W -> list Event -> Prop :=
| run_create_failed err w1 :
    CreateContainer spec w = (RErr err, w1) ->
    container_run i spec records newIps e w
      (Fail err) e w1 [EvCreateContainer spec (RErr err)]
| run_ips_out_of_range c w1 :
    CreateContainer spec w = (ROk c, w1) ->
    request e i = None ->
    container_run i spec records newIps e w
      (Panic (IpsAt i)) e w1 [EvCreateContainer spec (ROk c)]
| run_connect_failed c w1 ip err w2 :
    CreateContainer spec w = (ROk c, w1) ->
    request e i = Some ip ->
    docker.Connect c ip w1 = (RErr err, w2) ->
    container_run i spec records newIps e w
      (Fail err) e w2 [EvCreateContainer spec (ROk c); EvConnect c ip (RErr err)]
| run_records_out_of_range c w1 ip d w2 :
    CreateContainer spec w = (ROk c, w1) ->
    request e i = Some ip ->
    docker.Connect c ip w1 = (ROk d, w2) ->
    records !! i = None ->
    container_run i spec records newIps e w
      (Panic (RecordsAt i)) e w2 [EvCreateContainer spec (ROk c); EvConnect c ip (ROk d)]
| run_done c w1 ip d w2 rs newIps1 :
    CreateContainer spec w = (ROk c, w1) ->
    request e i = Some ip ->
    docker.Connect c ip w1 = (ROk d, w2) ->
    records !! i = Some rs ->
    newIps1 = bump e newIps d ->
    container_run i spec records newIps e w
      (Ret (c, newIps1))
      (set_dnsRecords (dnsRecords e ++ synth_one d rs) e) w2
      [EvCreateContainer spec (ROk c); EvConnect c ip (ROk d)].

Lemma create_container_run i spec records newIps e w :
  let '(out, e1, w1, log) := create_container i spec records newIps e w in
  container_run i (docker.with_DNS spec [dnsIP e]) records newIps e w out e1 w1 log.
Proof.
  unfold create_container, bind, get, try.
  destruct (CreateContainer _ w) as [[c|err] w1] eqn:Hc; simpl;
    [|by constructor].
  destruct (ips e) as [t|] eqn:Ht.
  - destruct (t !! i) as [ip|] eqn:Hip; simpl.
    + assert (Hreq : request e i = Some (Some ip))
        by (unfold request; by rewrite Ht, Hip).
      destruct (docker.Connect c (Some ip) w1) as [[d|err] w2] eqn:Hn; simpl;
        [|by eapply run_connect_failed].
      destruct (records !! i) as [rs|] eqn:Hrs; simpl.
      * rewrite add_records_run; simpl.
        eapply run_done; [done..|]. unfold bump. by rewrite Ht.
      * by eapply run_records_out_of_range.
    + apply run_ips_out_of_range; [done|].
      unfold request. by rewrite Ht, Hip.
  - assert (Hreq : request e i = Some None)
      by (unfold request; by rewrite Ht).
    destruct (docker.Connect c None w1) as [[d|err] w2] eqn:Hn; simpl;
      [|by eapply run_connect_failed].
    destruct (records !! i) as [rs|] eqn:Hrs; simpl.
    + rewrite add_records_run; simpl.
      eapply run_done; [done..|]. unfold bump. by rewrite Ht.
    + by eapply run_records_out_of_range.
Qed.

(** *** The container loop *)

(** The runs of the first loop of [Create]: it ends when the specs are
    exhausted or when the body for one container does not complete. *)
Inductive containers_run (records : list (list RecordConfig))
    : nat -> list docker.ContainerConfig -> list Machine -> option (list Z) ->
      exercise -> W ->
      Outcome (list Machine * option (list Z)) -> exercise -> W -> list Event -> Prop :=
| loop_end i ms newIps e w :
    containers_run records i [] ms newIps e w (Ret (ms, newIps)) e w []
| loop_fail i spec rest ms newIps e w err e1 w1 log :
    container_run i (docker.with_DNS spec [dnsIP e]) records newIps e w
      (Fail err) e1 w1 log ->
    containers_run records i (spec :: rest) ms newIps e w (Fail err) e1 w1 log
| loop_panic i spec rest ms newIps e w at_ e1 w1 log :
    container_run i (docker.with_DNS spec [dnsIP e]) records newIps e w
      (Panic at_) e1 w1 log ->
    containers_run records i (spec :: rest) ms newIps e w (Panic at_) e1 w1 log
| loop_next i spec rest ms newIps e w c newIps1 e1 w1 log1 out e2 w2 log2 :
    container_run i (docker.with_DNS spec [dnsIP e]) records newIps e w
      (Ret (c, newIps1)) e1 w1 log1 ->
    containers_run records (S i) rest (ms ++ [ContainerMachine c]) newIps1 e1 w1
      out e2 w2 log2 ->
    containers_run records i (spec :: rest) ms newIps e w out e2 w2 (log1 ++ log2).

Lemma create_containers_run records containers : forall i ms newIps e w,
  let '(out, e1, w1, log) := create_containers i containers records ms newIps e w in
  containers_run records i containers ms newIps e w out e1 w1 log.
Proof.
  induction containers as [|spec rest IH]; intros i ms newIps e w; simpl.
  - constructor.
  - unfold bind.
    pose proof (create_container_run i spec records newIps e w) as Hstep.
    destruct (create_container i spec records newIps e w)
      as [[[[[c newIps1]|err|at_] e1] w1] log1].
    + specialize (IH (S i) (ms ++ [ContainerMachine c]) newIps1 e1 w1).
      destruct (create_containers (S i) rest records _ newIps1 e1 w1)
        as [[[out e2] w2] log2].
      by eapply loop_next.
    + by apply loop_fail.
    + by apply loop_panic.
Qed.

Lemma created_app l1 l2 : created (l1 ++ l2) = created l1 ++ created l2.
Proof.
  induction l1 as [|[? [?|?]|? ? ?|? ? ?|? ?|? ?|? ?] l1 IH]; simpl; by rewrite ?IH.
Qed.

Lemma create_calls_app l1 l2 :
  create_calls (l1 ++ l2) = create_calls l1 ++ create_calls l2.
Proof.
  induction l1 as [|[] l1 IH]; simpl; by rewrite ?IH.
Qed.

Lemma connected_app l1 l2 : connected (l1 ++ l2) = connected l1 ++ connected l2.
Proof.
  induction l1 as [|[? ?|? ? [?|?]|? ? ?|? ?|? ?|? ?] l1 IH]; simpl; by rewrite ?IH.
Qed.

Lemma connect_requests_app l1 l2 :
  connect_requests (l1 ++ l2) = connect_requests l1 ++ connect_requests l2.
Proof.
  induction l1 as [|[] l1 IH]; simpl; by rewrite ?IH.
Qed.

Lemma copied_app l1 l2 : copied (l1 ++ l2) = copied l1 ++ copied l2.
Proof.
  induction l1 as [|[? ?|? ? ?|? ? [?|?]|? ?|? ?|? ?] l1 IH]; simpl; by rewrite ?IH.
Qed.

Lemma copy_calls_app l1 l2 : copy_calls (l1 ++ l2) = copy_calls l1 ++ copy_calls l2.
Proof.
  induction l1 as [|[] l1 IH]; simpl; by rewrite ?IH.
Qed.

(** The loop writes no field of the controller but [dnsRecords]. *)
Definition same_but_dns (e e1 : exercise) : Prop :=
  conf e1 = conf e /\ machines e1 = machines e /\ ips e1 = ips e /\ dnsIP e1 = dnsIP e.

Lemma container_run_frame i spec records newIps e w out e1 w1 log :
  container_run i spec records newIps e w out e1 w1 log -> same_but_dns e e1.
Proof. by destruct 1. Qed.

Lemma containers_run_frame records i containers ms newIps e w out e1 w1 log :
  containers_run records i containers ms newIps e w out e1 w1 log ->
  same_but_dns e e1.
Proof.
  induction 1 as [| ? ? ? ? ? ? ? ? ? ? ? Hs | ? ? ? ? ? ? ? ? ? ? ? Hs
                 | ? ? ? ? ? ? ? ? ? ? ? ? ? ? ? ? Hs _ IH];
    try apply container_run_frame in Hs; unfold same_but_dns in *;
    [done..|].
  destruct Hs as (? & ? & ? & ?), IH as (? & ? & ? & ?).
  repeat split; congruence.
Qed.

(** Whatever the outcome, the records present before the loop are kept and
    the records of the containers that got an address are put after them. *)
Lemma containers_run_dns records i containers ms newIps e w out e1 w1 log :
  containers_run records i containers ms newIps e w out e1 w1 log ->
  dnsRecords e1 = dnsRecords e ++ synth (connected log) (drop i records).
Proof.
  induction 1 as [| ? ? ? ? ? ? ? ? ? ? ? Hs | ? ? ? ? ? ? ? ? ? ? ? Hs
                 | ? ? ? ? ? ? ? ? ? ? ? ? ? ? ? ? Hs _ IH].
  - simpl. by rewrite app_nil_r.
  - inversion Hs; subst; simpl; by rewrite app_nil_r.
  - inversion Hs as [| | |? ? ? ? ? ? ? ? Hrs|]; subst; simpl.
    + by rewrite app_nil_r.
    + apply lookup_ge_None in Hrs. rewrite drop_ge by done.
      by rewrite app_nil_r.
  - rewrite IH. inversion Hs as [| | | |? ? ? ? ? ? ? ? ? ? Hrs]; subst; simpl.
    rewrite (drop_S _ _ _ Hrs). unfold synth; simpl. by rewrite app_assoc.
Qed.

Lemma append_ips_Some l ds : append_ips (Some l) ds = Some (l ++ ds).
Proof.
  revert l. induction ds as [|d ds IH]; intros l; simpl.
  - by rewrite app_nil_r.
  - unfold append_ips in *; simpl. rewrite IH. by rewrite <- app_assoc.
Qed.

Lemma append_ips_None ds :
  append_ips None ds = match ds with [] => None | _ :: _ => Some ds end.
Proof.
  destruct ds as [|d ds]; [done|].
  unfold append_ips; simpl. apply (append_ips_Some [d] ds).
Qed.

(** When the loop completes, every spec was served in order, each container
    was connected once, and the machines are the new containers. *)
Lemma containers_run_ret records i containers ms newIps e w ms1 newIps1 e1 w1 log :
  containers_run records i containers ms newIps e w (Ret (ms1, newIps1)) e1 w1 log ->
  ms1 = ms ++ map ContainerMachine (created log)
  /\ create_calls log = served (dnsIP e) containers (created log)
  /\ length (created log) = length containers
  /\ length (connected log) = length containers
  /\ copy_calls log = [] /\ copied log = []
  /\ newIps1 = match ips e with
               | None => append_ips newIps (connected log)
               | Some _ => newIps
               end
  /\ length containers <= length records - i.
Proof.
  remember (Ret (ms1, newIps1)) as out eqn:Hout.
  induction 1 as [| | | ? ? ? ? ? ? ? ? ? ? ? ? ? ? ? ? Hs Hl IH].
  - injection Hout as <- <-. simpl. rewrite app_nil_r.
    repeat split; try done; [by destruct (ips e)|lia].
  - done.
  - done.
  - specialize (IH Hout). destruct IH as (-> & Hcalls & Hlen & Hlen2 & Hcp & Hcd & -> & Hrec).
    pose proof (container_run_frame _ _ _ _ _ _ _ _ _ _ Hs) as (_ & _ & Hips & Hdns).
    inversion Hs as [| | | |? ? ? ? ? ? ? ? ? ? Hrs ?]; subst.
    simpl in *. rewrite <- app_assoc. simpl. rewrite Hcalls, Hlen, Hlen2.
    repeat split; try done.
    + unfold bump. destruct (ips e); [done|].
      unfold append_ips. done.
    + apply lookup_lt_Some in Hrs. lia.
Qed.

(** When the loop completes on the reuse path, the network was asked for
    the stored octets, position by position; on the first creation it was
    never asked for a particular octet. *)
Lemma containers_run_requests records i containers ms newIps e w r e1 w1 log :
  containers_run records i containers ms newIps e w (Ret r) e1 w1 log ->
  connect_requests log
  = match ips e with
    | Some t => map Some (take (length containers) (drop i t))
    | None => replicate (length containers) None
    end.
Proof.
  remember (Ret r) as out eqn:Hout.
  induction 1 as [| | | i spec rest ms newIps e w c newIps1 e1 w1 log1
                        out e2 w2 log2 Hs Hl IH].
  - simpl. by destruct (ips e).
  - done.
  - done.
  - specialize (IH Hout).
    pose proof (container_run_frame _ _ _ _ _ _ _ _ _ _ Hs) as (_ & _ & Hips & _).
    rewrite Hips in IH.
    inversion Hs as [| | | |? ? ip ? ? ? ? ? Hreq ? ? ?]; subst.
    simpl. rewrite IH. unfold request in Hreq.
    destruct (ips e) as [t|]; [|by injection Hreq as <-].
    destruct (t !! i) as [stored|] eqn:Hd; [|done]. injection Hreq as <-.
    by rewrite (drop_S _ _ _ Hd).
Qed.

(** A failed provisioning call ends the loop with its error; the
    containers created before it are those of the earlier calls. *)
Lemma containers_run_create_failed records i containers ms newIps e w out e1 w1 log :
  containers_run records i containers ms newIps e w out e1 w1 log ->
  forall k spec err,
    create_calls log !! k = Some (spec, RErr err) ->
    out = Fail err /\ length (created log) = k.
Proof.
  induction 1 as [| ? ? ? ? ? ? ? ? ? ? ? Hs | ? ? ? ? ? ? ? ? ? ? ? Hs
                 | ? ? ? ? ? ? ? ? ? ? ? ? ? ? ? ? Hs _ IH];
    intros k spec' err' Hk.
  - done.
  - inversion Hs; subst; simpl in *; destruct k as [|k]; by simplify_eq/=.
  - inversion Hs; subst; simpl in *; destruct k as [|k]; by simplify_eq/=.
  - inversion Hs; subst; simpl in *. destruct k as [|k]; [by simplify_eq/=|].
    simpl in Hk. apply IH in Hk as [-> <-]. done.
Qed.

(** Reliable collaborators never make the loop return an error. *)
Lemma containers_run_no_fail records i containers ms newIps e w out e1 w1 log :
  docker_reliable -> net_reliable ->
  containers_run records i containers ms newIps e w out e1 w1 log ->
  forall err, out <> Fail err.
Proof.
  intros Hd Hn.
  induction 1 as [| i spec rest ms newIps e w err e1 w1 log Hs |
                 | ? ? ? ? ? ? ? ? ? ? ? ? ? ? ? ? Hs Hl IH];
    intros err' ?; simplify_eq.
  - inversion Hs as [? ? Hc| |c w0 ip ? ? Hc Hr Hcn| |]; subst.
    + destruct (Hd (docker.with_DNS spec [dnsIP e1]) w) as (? & ? & ?). congruence.
    + destruct (Hn c ip w0) as (? & ? & ?). congruence.
  - by eapply IH.
Qed.

(** In-range tables never make the loop panic. *)
Lemma containers_run_no_ips_panic records i containers ms newIps e w out e1 w1 log :
  containers_run records i containers ms newIps e w out e1 w1 log ->
  ips_cover (ips e) (i + length containers) ->
  forall j, out <> Panic (IpsAt j).
Proof.
  induction 1 as [| | ? ? ? ? ? ? ? ? ? ? ? Hs
                 | i spec rest ms newIps e w ? ? e1 ? ? ? ? ? ? Hs _ IH];
    intros Hcov j ?; simplify_eq.
  - inversion Hs as [|? ? ? Hreq| | |]; subst.
    unfold request in Hreq. unfold ips_cover in Hcov.
    destruct (ips _) as [t|]; [|done].
    destruct (t !! _) eqn:Hi; [done|].
    apply lookup_ge_None in Hi. simpl in Hcov. lia.
  - apply (IH) with (j := j); [|done].
    apply container_run_frame in Hs as (_ & _ & -> & _).
    unfold ips_cover in *. destruct (ips e); [|done]. simpl in Hcov. lia.
Qed.

Lemma containers_run_no_records_panic records i containers ms newIps e w out e1 w1 log :
  containers_run records i containers ms newIps e w out e1 w1 log ->
  i + length containers <= length records ->
  forall j, out <> Panic (RecordsAt j).
Proof.
  induction 1 as [| | ? ? ? ? ? ? ? ? ? ? ? Hs
                 | ? ? ? ? ? ? ? ? ? ? ? ? ? ? ? ? Hs _ IH];
    intros Hcov j ?; simplify_eq.
  - inversion Hs as [| | |? ? ? ? ? ? ? ? Hrs|]; subst.
    apply lookup_ge_None in Hrs. simpl in Hcov. lia.
  - apply (IH) with (j := j); [|done]. simpl in Hcov. lia.
Qed.

(** A table that ends inside the range of the loop: the loop cannot
    complete, an index panic can only be at the first missing position, and
    that panic is what happens when nothing else stops the loop earlier. *)
Lemma containers_run_short records i containers ms newIps e w out e1 w1 log t :
  containers_run records i containers ms newIps e w out e1 w1 log ->
  ips e = Some t -> i <= length t -> length t < i + length containers ->
  (forall r, out <> Ret r)
  /\ (forall j, out = Panic (IpsAt j) -> j = length t)
  /\ (docker_reliable -> net_reliable -> length t <= length records ->
      out = Panic (IpsAt (length t))).
Proof.
  induction 1 as [| ? ? ? ? ? ? ? ? ? ? ? Hs | ? ? ? ? ? ? ? ? ? ? ? Hs
                 | ? ? ? ? ? ? ? ? ? ? ? ? ? ? ? ? Hs Hl IH];
    intros Ht Hi Hlen; simpl in Hlen.
  - lia.
  - split; [done|]. split; [done|]. intros Hd Hn _. exfalso.
    eapply (containers_run_no_fail records i (spec :: rest) ms newIps e w);
      [done|done| |done].
    by apply loop_fail.
  - inversion Hs as [|? ? ? Hreq| |? ? ? ? ? ? Hreq ? Hrs|]; subst.
    + unfold request in Hreq. rewrite Ht in Hreq.
      destruct (t !! i) eqn:Hti; [done|]. apply lookup_ge_None in Hti.
      assert (i = length t) as -> by lia.
      split; [done|]. split; [by intros ? [= ->]|done].
    + split; [done|]. split; [done|]. intros _ _ Hrec. exfalso.
      unfold request in Hreq. rewrite Ht in Hreq.
      destruct (t !! i) eqn:Hti; [|done]. apply lookup_lt_Some in Hti.
      apply lookup_ge_None in Hrs. lia.
  - pose proof (container_run_frame _ _ _ _ _ _ _ _ _ _ Hs) as (_ & _ & Hips & _).
    inversion Hs as [| | | |? ? ? ? ? ? ? ? Hreq ? ? ?]; subst.
    unfold request in Hreq. rewrite Ht in Hreq.
    destruct (t !! i) eqn:Hti; [|done]. apply lookup_lt_Some in Hti.
    apply IH; [by rewrite Hips|lia|lia].
Qed.

(** *** The VM loop *)

Lemma create_vms_run specs : forall ms e w,
  let '(out, e1, w1, log) := create_vms specs ms e w in
  e1 = e
  /\ created log = [] /\ create_calls log = []
  /\ (connected log = [] /\ connect_requests log = [])
  /\ (forall at_, out <> Panic at_)
  /\ (forall ms1, out = Ret ms1 ->
        ms1 = ms ++ map VMMachine (copied log)
        /\ copy_calls log = cloned specs (copied log)
        /\ length (copied log) = length specs)
  /\ (lib_reliable -> forall err, out <> Fail err).
Proof.
  induction specs as [|spec rest IH]; intros ms e w; simpl.
  - split_and!; try done. intros ms1 [= <-]. by rewrite app_nil_r.
  - unfold bind, try.
    destruct (vbox.GetCopy _ _ w) as [[vm|err] w1] eqn:Hg; simpl.
    + specialize (IH (ms ++ [VMMachine vm]) e w1).
      destruct (create_vms rest _ e w1) as [[[out e2] w2] log2].
      destruct IH as (-> & Hc & Hcc & [Hcn Hcq] & Hp & Hr & Hf).
      split_and!; try done.
      intros ms1 Hout. apply Hr in Hout as (-> & Hcp & Hlen).
      simpl. by rewrite Hcp, Hlen, <- app_assoc.
    + split_and!; try done. intros Hl err' _.
      destruct (Hl (Image spec) [vbox.SetBridge docker.Interface] w)
        as (? & ? & ?). congruence.
Qed.

(** *** [Create] as a whole *)

(** The ways [Create] can end: inside the container loop, inside the VM
    loop, or at its last line. *)
Inductive Create_run (e : exercise) (w : W)
    : Outcome unit -> exercise -> W -> list Event -> Prop :=
| Create_containers_fail err e1 w1 log :
    containers_run (ContainerOpts (conf e)).2 0 (ContainerOpts (conf e)).1 [] None
      e w (Fail err) e1 w1 log ->
    Create_run e w (Fail err) e1 w1 log
| Create_containers_panic at_ e1 w1 log :
    containers_run (ContainerOpts (conf e)).2 0 (ContainerOpts (conf e)).1 [] None
      e w (Panic at_) e1 w1 log ->
    Create_run e w (Panic at_) e1 w1 log
| Create_vms_fail ms newIps e1 w1 log1 err w2 log2 :
    containers_run (ContainerOpts (conf e)).2 0 (ContainerOpts (conf e)).1 [] None
      e w (Ret (ms, newIps)) e1 w1 log1 ->
    create_vms (VBoxConfig (conf e)) ms e1 w1 = (Fail err, e1, w2, log2) ->
    Create_run e w (Fail err) e1 w2 (log1 ++ log2)
| Create_done ms newIps e1 w1 log1 ms1 w2 log2 :
    containers_run (ContainerOpts (conf e)).2 0 (ContainerOpts (conf e)).1 [] None
      e w (Ret (ms, newIps)) e1 w1 log1 ->
    create_vms (VBoxConfig (conf e)) ms e1 w1 = (Ret ms1, e1, w2, log2) ->
    Create_run e w (Ret tt)
      (set_machines ms1
         (match ips e1 with None => set_ips newIps e1 | Some _ => e1 end))
      w2 (log1 ++ log2).

Lemma Create_runs e w out e1 w1 log :
  Create e w = (out, e1, w1, log) -> Create_run e w out e1 w1 log.
Proof.
  unfold Create, bind at 1, get.
  destruct (ContainerOpts (conf e)) as [containers records] eqn:Hopts.
  pose proof (create_containers_run records containers 0 [] None e w) as Hloop.
  unfold bind at 1.
  destruct (create_containers 0 containers records [] None e w)
    as [[[[[ms newIps]|err|at_] ec] wc] logc].
  - unfold bind at 1.
    pose proof (create_vms_run (VBoxConfig (conf e)) ms ec wc) as Hvm.
    destruct (create_vms (VBoxConfig (conf e)) ms ec wc)
      as [[[[ms1|err|at_] ev] wv] logv] eqn:Hv;
      destruct Hvm as (-> & _ & _ & _ & Hnp & _).
    + unfold bind, get, modify, ret; destruct (ips ec) eqn:Hips; simpl;
        intros [= <- <- <- <-]; rewrite ?app_nil_r;
        replace logc with (logc ++ []) at 1 by apply app_nil_r;
        rewrite <- app_assoc; simpl.
      * pose proof (Create_done e w ms newIps ec wc logc ms1 wv logv) as Hd.
        rewrite Hopts, Hips in Hd. by apply Hd.
      * pose proof (Create_done e w ms newIps ec wc logc ms1 wv logv) as Hd.
        rewrite Hopts, Hips in Hd. by apply Hd.
    + intros [= <- <- <- <-]. eapply Create_vms_fail; [|done].
      by rewrite Hopts.
    + by destruct (Hnp at_).
  - simpl. intros [= <- <- <- <-]. apply Create_containers_fail. by rewrite Hopts.
  - simpl. intros [= <- <- <- <-]. apply Create_containers_panic. by rewrite Hopts.
Qed.

Lemma Create_run_frame e w out e1 w1 log :
  Create_run e w out e1 w1 log ->
  conf e1 = conf e /\ dnsIP e1 = dnsIP e
  /\ dnsRecords e1 = dnsRecords e ++ synth (connected log) (ContainerOpts (conf e)).2.
Proof.
  destruct 1 as [? ? ? ? Hl|? ? ? ? Hl|? ? ? ? ? ? ? ? Hl Hv|? ? ? ? ? ? ? ? Hl Hv];
    pose proof (containers_run_frame _ _ _ _ _ _ _ _ _ _ _ Hl) as (Hc & _ & _ & Hd);
    pose proof (containers_run_dns _ _ _ _ _ _ _ _ _ _ _ Hl) as Hr;
    rewrite drop_0 in Hr.
  - done.
  - done.
  - pose proof (create_vms_run (VBoxConfig (conf e)) ms e1 w1) as Hvm.
    rewrite Hv in Hvm. destruct Hvm as (_ & _ & _ & [Hcn Hcq] & _).
    by rewrite connected_app, Hcn, app_nil_r.
  - pose proof (create_vms_run (VBoxConfig (conf e)) ms e1 w1) as Hvm.
    rewrite Hv in Hvm. destruct Hvm as (_ & _ & _ & [Hcn Hcq] & _).
    rewrite connected_app, Hcn, app_nil_r.
    by destruct (ips e1).
Qed.

(** A table that is not nil is never written by [Create]. *)
Lemma Create_run_ips_kept e w out e1 w1 log t :
  Create_run e w out e1 w1 log -> ips e = Some t -> ips e1 = Some t.
Proof.
  destruct 1 as [? ? ? ? Hl|? ? ? ? Hl|? ? ? ? ? ? ? ? Hl Hv|? ? ? ? ? ? ? ? Hl Hv];
    pose proof (containers_run_frame _ _ _ _ _ _ _ _ _ _ _ Hl) as (_ & _ & Hi & _);
    intros Ht; rewrite Ht in Hi; try done.
  by rewrite Hi.
Qed.

(** From a nil table, a completed [Create] stores the octets it was given,
    one per container spec. *)
Lemma Create_run_ips_fresh e w e1 w1 log :
  Create_run e w (Ret tt) e1 w1 log -> ips e = None ->
  ips e1 = append_ips None (connected log)
  /\ length (connected log) = length (ContainerOpts (conf e)).1.
Proof.
  inversion 1 as [| | |ms newIps ec wc logc ms1 wv logv Hl Hv]; subst. intros Ht.
  pose proof (containers_run_frame _ _ _ _ _ _ _ _ _ _ _ Hl) as (_ & _ & Hi & _).
  apply containers_run_ret in Hl as (_ & _ & _ & Hlen & _ & _ & Hn & _).
  pose proof (create_vms_run (VBoxConfig (conf e)) ms ec wc) as Hvm.
  rewrite Hv in Hvm. destruct Hvm as (_ & _ & _ & [Hcn Hcq] & _).
  rewrite connected_app, Hcn, app_nil_r. rewrite Ht in Hi, Hn. rewrite Hi. simpl.
  by subst.
Qed.

(** *** The instance loops *)

Lemma bind_Ret {A B} (m : M A) (k : A -> M B) e w b e2 w2 log :
  bind m k e w = (Ret b, e2, w2, log) ->
  exists a e1 w1 l1 l2,
    m e w = (Ret a, e1, w1, l1) /\ k a e1 w1 = (Ret b, e2, w2, l2) /\ log = l1 ++ l2.
Proof.
  unfold bind. destruct (m e w) as [[[[a|err|at_] e1] w1] l1]; [|done..].
  destruct (k a e1 w1) as [[[o ek] wk] lk] eqn:Hk.
  intros [= -> -> -> <-]. by exists a, e1, w1, l1, lk.
Qed.

(** A run of the shared loop either serves every machine or stops at the
    first one whose call returns an error. *)
Inductive each_run (ev : Machine -> option Error -> Event) (ms : list Machine)
    : Outcome unit -> list Event -> Prop :=
| each_done :
    each_run ev ms (Ret tt) (map (fun m => ev m None) ms)
| each_stopped pre m post err :
    ms = pre ++ m :: post ->
    each_run ev ms (Fail err) (map (fun m => ev m None) pre ++ [ev m (Some err)]).

Lemma each_runs op ev ms : forall e w,
  let '(out, e1, w1, log) := each op ev ms e w in
  e1 = e /\ each_run ev ms out log.
Proof.
  induction ms as [|m rest IH]; intros e w; simpl.
  - split; [done|]. apply each_done.
  - unfold bind, check. destruct (op m w) as [[err|] w1].
    + split; [done|]. by apply (each_stopped ev (m :: rest) [] m rest err).
    + specialize (IH e w1). destruct (each op ev rest e w1) as [[[out e2] w2] log2].
      destruct IH as [-> Hr]. split; [done|]. simpl.
      destruct Hr as [|pre m' post err ->].
      * apply (each_done ev (m :: rest)).
      * by apply (each_stopped ev (m :: pre ++ m' :: post) (m :: pre) m' post err).
Qed.

Lemma Start_runs e w out e1 w1 log :
  Start e w = (out, e1, w1, log) -> e1 = e /\ each_run EvStart (machines e) out log.
Proof.
  unfold Start, bind at 1, get, bind.
  pose proof (each_runs machine_Start EvStart (machines e) e w) as Hr.
  destruct (each _ _ _ e w) as [[[[[]|err|at_] ea] wa] la]; simpl;
    intros [= <- <- <- <-]; by rewrite ?app_nil_r.
Qed.

Lemma Stop_runs e w out e1 w1 log :
  Stop e w = (out, e1, w1, log) -> e1 = e /\ each_run EvStop (machines e) out log.
Proof.
  unfold Stop, bind at 1, get, bind.
  pose proof (each_runs machine_Stop EvStop (machines e) e w) as Hr.
  destruct (each _ _ _ e w) as [[[[[]|err|at_] ea] wa] la]; simpl;
    intros [= <- <- <- <-]; by rewrite ?app_nil_r.
Qed.

Lemma Close_runs e w out e1 w1 log :
  Close e w = (out, e1, w1, log) ->
  each_run EvClose (machines e) out log
  /\ e1 = match out with Ret _ => set_machines [] e | _ => e end.
Proof.
  unfold Close, bind at 1, get, bind, modify, ret.
  pose proof (each_runs machine_Close EvClose (machines e) e w) as Hr.
  destruct (each _ _ _ e w) as [[[[[]|err|at_] ea] wa] la]; simpl;
    destruct Hr as [-> Hr]; intros [= <- <- <- <-]; by rewrite ?app_nil_r.
Qed.

Lemma each_run_no_requests ev ms out log :
  (forall m r, connect_requests [ev m r] = []) ->
  each_run ev ms out log -> connect_requests log = [].
Proof.
  intros Hev [|pre m post err _].
  - induction ms as [|m ms IH]; [done|]. simpl.
    change (connect_requests ([ev m None] ++ map (fun m => ev m None) ms) = []).
    by rewrite connect_requests_app, Hev, IH.
  - rewrite connect_requests_app, Hev, app_nil_r.
    induction pre as [|m' pre IH]; [done|]. simpl.
    change (connect_requests ([ev m' None] ++ map (fun m => ev m None) pre) = []).
    by rewrite connect_requests_app, Hev, IH.
Qed.

(** A completed [Create] asked the network for the stored octets when
    there were any, and for no particular octet otherwise. *)
Lemma Create_run_requests e w e1 w1 log :
  Create_run e w (Ret tt) e1 w1 log ->
  connect_requests log
  = match ips e with
    | Some t => map Some (take (length (ContainerOpts (conf e)).1) t)
    | None => replicate (length (ContainerOpts (conf e)).1) None
    end.
Proof.
  inversion 1 as [| | |ms newIps ec wc logc ms1 wv logv Hl Hv]; subst.
  pose proof (create_vms_run (VBoxConfig (conf e)) ms ec wc) as Hvm.
  rewrite Hv in Hvm. destruct Hvm as (_ & _ & _ & [Hcn Hcq] & _).
  rewrite connect_requests_app, Hcq, app_nil_r.
  apply containers_run_requests in Hl. by rewrite Hl.
Qed.

(** *** The invariant of the IP table *)

(** The IP table is nil or has an entry for every container spec. *)
Definition ips_aligned (e : exercise) : Prop :=
  ips_cover (ips e) (length (ContainerOpts (conf e)).1).

(** A [Create] that does not complete writes neither the machine list nor
    the IP table. *)
Lemma Create_run_abort e w out e1 w1 log :
  Create_run e w out e1 w1 log -> out <> Ret tt ->
  machines e1 = machines e /\ ips e1 = ips e.
Proof.
  destruct 1 as [? ? ? ? Hl|? ? ? ? Hl|? ? ? ? ? ? ? ? Hl Hv|? ? ? ? ? ? ? ? Hl Hv];
    intros Hout; [| | |done];
    by apply containers_run_frame in Hl as (_ & ? & ? & _).
Qed.

Lemma Create_keeps_ips_aligned e w out e1 w1 log :
  Create e w = (out, e1, w1, log) -> ips_aligned e -> ips_aligned e1.
Proof.
  intros Hrun Hal. apply Create_runs in Hrun.
  pose proof (Create_run_frame _ _ _ _ _ _ Hrun) as (Hconf & _).
  unfold ips_aligned in *. rewrite Hconf.
  destruct (ips e) as [t|] eqn:Ht.
  - by rewrite (Create_run_ips_kept _ _ _ _ _ _ t Hrun Ht).
  - destruct out as [[]|err|at_].
    + apply Create_run_ips_fresh in Hrun as [-> Hlen]; [|done].
      rewrite append_ips_None.
      destruct (connected log); [done|]. simpl in *. lia.
    + apply Create_run_abort in Hrun as [_ ->]; [|done]. by rewrite Ht.
    + apply Create_run_abort in Hrun as [_ ->]; [|done]. by rewrite Ht.
Qed.

Lemma Close_keeps_ips_aligned e w out e1 w1 log :
  Close e w = (out, e1, w1, log) -> ips_aligned e -> ips_aligned e1.
Proof. intros Hrun. apply Close_runs in Hrun as [_ ->]. by destruct out. Qed.

Lemma run_components {A} (r : Outcome A * exercise * W * list Event) :
  r = (outcome_of r, state_of r, world_of r, calls_of r).
Proof. by destruct r as [[[? ?] ?] ?]. Qed.

Lemma bind_keeps {A B} (P : exercise -> Prop) (m : M A) (k : A -> M B) :
  (forall e w, P e -> P (state_of (m e w))) ->
  (forall a e w, P e -> P (state_of (k a e w))) ->
  forall e w, P e -> P (state_of (bind m k e w)).
Proof.
  intros Hm Hk e w HP. specialize (Hm e w HP). unfold bind, state_of in *.
  destruct (m e w) as [[[[a|err|at_] e1] w1] l1]; simpl in *; try done.
  specialize (Hk a e1 w1 Hm).
  by destruct (k a e1 w1) as [[[o e2] w2] l2].
Qed.

(** Every lifecycle operation, however it ends, keeps the IP table nil or
    with an entry for every container spec; a controller that starts with
    a nil table therefore never indexes its table out of range. *)
Lemma lifecycle_keeps_ips_aligned (op : M unit) :
  In op [Create; Start; Stop; Close; Restart; Reset] ->
  forall e w, ips_aligned e -> ips_aligned (state_of (op e w)).
Proof.
  assert (Hcreate : forall e w, ips_aligned e -> ips_aligned (state_of (Create e w))).
  { intros e w. apply (Create_keeps_ips_aligned e w (outcome_of (Create e w)) _
                         (world_of (Create e w)) (calls_of (Create e w))).
    apply run_components. }
  assert (Hstart : forall e w, ips_aligned e -> ips_aligned (state_of (Start e w))).
  { intros e w He.
    destruct (Start_runs e w _ _ _ _ (run_components (Start e w))) as [-> _]. done. }
  assert (Hstop : forall e w, ips_aligned e -> ips_aligned (state_of (Stop e w))).
  { intros e w He.
    destruct (Stop_runs e w _ _ _ _ (run_components (Stop e w))) as [-> _]. done. }
  assert (Hclose : forall e w, ips_aligned e -> ips_aligned (state_of (Close e w))).
  { intros e w. apply (Close_keeps_ips_aligned e w (outcome_of (Close e w)) _
                         (world_of (Close e w)) (calls_of (Close e w))).
    apply run_components. }
  assert (Hret : forall e w, ips_aligned e -> ips_aligned (state_of (ret tt e w)))
    by done.
  intros [<-|[<-|[<-|[<-|[<-|[<-|[]]]]]]]; try done.
  - apply bind_keeps; [done|]. intros _. apply bind_keeps; [done|]. by intros _.
  - apply bind_keeps; [done|]. intros _. apply bind_keeps; [done|]. intros _.
    apply bind_keeps; [done|]. by intros _.
Qed.

(** *** Properties of the lifecycle operations *)

(** C1 (as amended): when the provisioning call number [k] (counting from
    0) of a [Create] fails with [err], [Create] returns exactly [err], the
    [k] earlier calls each produced a container, and the machine list and
    the IP table of the controller are what they were before the call: the
    containers created so far only live in a local variable. *)
Theorem Create_failed_provisioning e w out e1 w1 log k spec err :
  Create e w = (out, e1, w1, log) ->
  create_calls log !! k = Some (spec, RErr err) ->
  out = Fail err
  /\ length (created log) = k
  /\ machines e1 = machines e
  /\ ips e1 = ips e.
Proof.
  intros Hrun Hk. apply Create_runs in Hrun.
  destruct Hrun as [? ? ? ? Hl|? ? ? ? Hl|? ? ? ? ? ? ? ? Hl Hv|? ? ? ? ? ? ? ? Hl Hv].
  - pose proof (containers_run_frame _ _ _ _ _ _ _ _ _ _ _ Hl) as (_ & Hm & Hi & _).
    destruct (containers_run_create_failed _ _ _ _ _ _ _ _ _ _ _ Hl _ _ _ Hk)
      as [[= ->] Hlen].
    by split_and!.
  - by destruct (containers_run_create_failed _ _ _ _ _ _ _ _ _ _ _ Hl _ _ _ Hk).
  - pose proof (create_vms_run (VBoxConfig (conf e)) ms e1 w1) as Hvm.
    rewrite Hv in Hvm. destruct Hvm as (_ & _ & Hcc & _).
    rewrite create_calls_app, Hcc, app_nil_r in Hk.
    by destruct (containers_run_create_failed _ _ _ _ _ _ _ _ _ _ _ Hl _ _ _ Hk).
  - pose proof (create_vms_run (VBoxConfig (conf e)) ms e1 w1) as Hvm.
    rewrite Hv in Hvm. destruct Hvm as (_ & _ & Hcc & _).
    rewrite create_calls_app, Hcc, app_nil_r in Hk.
    by destruct (containers_run_create_failed _ _ _ _ _ _ _ _ _ _ _ Hl _ _ _ Hk).
Qed.

(** C2 (as amended): [Create] never empties the record set.  Whatever its
    outcome, the record set after the call is the record set before the
    call followed by the records synthesized, in container order, from the
    templates of this call and the octets bound during it. *)
Theorem Create_appends_records e w out e1 w1 log :
  Create e w = (out, e1, w1, log) ->
  dnsRecords e1
  = dnsRecords e ++ synth (connected log) (ContainerOpts (conf e)).2.
Proof.
  intros Hrun. apply Create_runs in Hrun.
  by apply Create_run_frame in Hrun as (_ & _ & ?).
Qed.

(** C3: after a [Create] that returned nil, a [Reset] that returns nil
    leaves the IP table exactly as that [Create] left it, and on its way it
    asks the network for exactly the octets of that table, one per
    container spec and in order. *)
Theorem Reset_keeps_ips e w e1 w1 log1 e2 w2 log2 :
  Create e w = (Ret tt, e1, w1, log1) ->
  Reset e1 w1 = (Ret tt, e2, w2, log2) ->
  ips e2 = ips e1
  /\ connect_requests log2
     = match ips e1 with
       | Some t => map Some (take (length (ContainerOpts (conf e)).1) t)
       | None => []
       end.
Proof.
  intros Hc Hr. unfold Reset in Hr.
  apply bind_Ret in Hr as ([] & ea & wa & la & lr & Hclose & Hr & ->).
  apply bind_Ret in Hr as ([] & eb & wb & lb & lr' & Hcreate & Hr & ->).
  apply bind_Ret in Hr as ([] & ec & wc & lc & lr'' & Hstart & Hr & ->).
  injection Hr as <- _ <-.
  apply Start_runs in Hstart as [-> Hst].
  apply Close_runs in Hclose as [Hcl ->].
  apply Create_runs in Hc, Hcreate.
  pose proof (Create_run_frame _ _ _ _ _ _ Hc) as (Hconf & _).
  pose proof (Create_run_requests _ _ _ _ _ Hcreate) as Hreq.
  simpl in Hreq. rewrite Hconf in Hreq.
  rewrite !connect_requests_app, Hreq.
  rewrite (each_run_no_requests EvClose _ _ la (fun _ _ => eq_refl) Hcl).
  rewrite (each_run_no_requests EvStart _ _ lc (fun _ _ => eq_refl) Hst).
  simpl. rewrite app_nil_r.
  destruct (ips e1) as [t|] eqn:Ht.
  - split; [|done]. by apply (Create_run_ips_kept _ _ _ _ _ _ t) in Hcreate.
  - destruct (ips e) as [t|] eqn:Ht0.
    { apply (Create_run_ips_kept _ _ _ _ _ _ t) in Hc; [congruence|done]. }
    apply Create_run_ips_fresh in Hc as [Hi1 Hn1]; [|done].
    apply Create_run_ips_fresh in Hcreate as [Hi2 Hn2]; [|done].
    simpl in Hn2. rewrite Hconf, <- Hn1 in Hn2.
    rewrite Hi2. rewrite Ht, append_ips_None in Hi1.
    destruct (connected log1); [|done]. rewrite <- Hn1. simpl.
    by destruct (connected lb).
Qed.

(** C4: with collaborators that cannot fail, on a controller whose IP
    table is nil or has an entry for every container spec (which every
    lifecycle operation preserves) and whose [ContainerOpts] come with
    record templates for every container spec, [Create] returns nil; the
    machine list is then the [N] new containers, container [k] being what
    provisioning spec [k] returned, followed by the [M] new virtual
    machines, machine [k] being the clone of VM spec [k]. *)
Theorem Create_all_succeed e w out e1 w1 log :
  docker_reliable -> net_reliable -> lib_reliable ->
  ips_aligned e ->
  length (ContainerOpts (conf e)).1 <= length (ContainerOpts (conf e)).2 ->
  Create e w = (out, e1, w1, log) ->
  out = Ret tt
  /\ machines e1 = map ContainerMachine (created log) ++ map VMMachine (copied log)
  /\ length (created log) = length (ContainerOpts (conf e)).1
  /\ length (copied log) = length (VBoxConfig (conf e))
  /\ length (machines e1)
     = length (ContainerOpts (conf e)).1 + length (VBoxConfig (conf e))
  /\ create_calls log = served (dnsIP e) (ContainerOpts (conf e)).1 (created log)
  /\ copy_calls log = cloned (VBoxConfig (conf e)) (copied log).
Proof.
  intros Hd Hn Hlib Hcov Hrec Hrun. apply Create_runs in Hrun.
  destruct Hrun as [? ? ? ? Hl|at_ ? ? ? Hl|? ? ? ? ? ? ? ? Hl Hv
                   |ms newIps ec wc logc ms1 wv logv Hl Hv].
  - by destruct (containers_run_no_fail _ _ _ _ _ _ _ _ _ _ _ Hd Hn Hl err).
  - destruct at_ as [j|j].
    + by destruct (containers_run_no_ips_panic _ _ _ _ _ _ _ _ _ _ _ Hl Hcov j).
    + by destruct (containers_run_no_records_panic _ _ _ _ _ _ _ _ _ _ _ Hl Hrec j).
  - pose proof (create_vms_run (VBoxConfig (conf e)) ms e1 w1) as Hvm.
    rewrite Hv in Hvm. destruct Hvm as (_ & _ & _ & _ & _ & _ & Hf).
    by destruct (Hf Hlib err).
  - pose proof (create_vms_run (VBoxConfig (conf e)) ms ec wc) as Hvm.
    rewrite Hv in Hvm. destruct Hvm as (_ & Hcr & Hcc & _ & _ & Hret & _).
    destruct (Hret ms1 eq_refl) as (-> & Hcp & Hlv).
    pose proof (containers_run_ret _ _ _ _ _ _ _ _ _ _ _ _ Hl)
      as (-> & Hcalls & Hlc & _ & Hcp1 & Hcd1 & _ & _).
    rewrite created_app, copied_app, create_calls_app, copy_calls_app.
    rewrite Hcr, Hcc, Hcp1, Hcd1, !app_nil_r. simpl.
    rewrite length_app, !length_map, Hlc, Hlv.
    by split_and!.
Qed.

(** C5: after a [Create] that returned nil, every container spec got an
    octet (on the first creation these octets are the new IP table), and
    the record set ends with, container after container and in template
    order within a container, the templates of that container, where a
    template with an empty target carries [FormatIP] of the container's
    octet and any other template is unchanged. *)
Theorem Create_fills_targets e w e1 w1 log :
  Create e w = (Ret tt, e1, w1, log) ->
  length (connected log) = length (ContainerOpts (conf e)).1
  /\ (ips e = None -> connected log <> [] -> ips e1 = Some (connected log))
  /\ dnsRecords e1
     = dnsRecords e
       ++ concat (zip_with (fun d rs => map (fill_RData (docker.FormatIP d)) rs)
                    (connected log) (ContainerOpts (conf e)).2)
  /\ (forall ipaddr r, RData r = EmptyString ->
        fill_RData ipaddr r
        = {| RType := RType r; Name := Name r; RData := ipaddr |})
  /\ (forall ipaddr r, RData r <> EmptyString -> fill_RData ipaddr r = r).
Proof.
  intros Hrun. apply Create_runs in Hrun.
  pose proof (Create_run_frame _ _ _ _ _ _ Hrun) as (_ & _ & Hdns).
  split_and!.
  - inversion Hrun as [| | |ms newIps ec wc logc ms1 wv logv Hl Hv]; subst.
    pose proof (create_vms_run (VBoxConfig (conf e)) ms ec wc) as Hvm.
    rewrite Hv in Hvm. destruct Hvm as (_ & _ & _ & [Hcn Hcq] & _).
    apply containers_run_ret in Hl as (_ & _ & _ & Hlen & _).
    by rewrite connected_app, Hcn, app_nil_r.
  - intros Ht Hne. apply Create_run_ips_fresh in Hrun as [-> _]; [|done].
    rewrite append_ips_None. by destruct (connected log).
  - exact Hdns.
  - intros ipaddr r Hr. unfold fill_RData. by rewrite Hr.
  - intros ipaddr r Hr. unfold fill_RData.
    destruct (String.eqb_spec (RData r) ""); done.
Qed.

(** Every machine of a list in turn returned nil from its primitive (the
    method of the container or of the virtual machine behind it), which
    took the world from [w] to [w1]. *)
Inductive all_nil (on_container : Container -> W -> option Error * W)
    (on_vm : VM -> W -> option Error * W) : list Machine -> W -> W -> Prop :=
| all_nil_end w :
    all_nil on_container on_vm [] w w
| all_nil_container c rest w w1 w2 :
    on_container c w = (None, w1) ->
    all_nil on_container on_vm rest w1 w2 ->
    all_nil on_container on_vm (ContainerMachine c :: rest) w w2
| all_nil_vm vm rest w w1 w2 :
    on_vm vm w = (None, w1) ->
    all_nil on_container on_vm rest w1 w2 ->
    all_nil on_container on_vm (VMMachine vm :: rest) w w2.

(** The primitive of machine [m], called in world [w], returned the error
    [err] and left the world [w1]. *)
Definition refuses (on_container : Container -> W -> option Error * W)
    (on_vm : VM -> W -> option Error * W)
    (m : Machine) (w : W) (err : Error) (w1 : W) : Prop :=
  match m with
  | ContainerMachine c => on_container c w = (Some err, w1)
  | VMMachine vm => on_vm vm w = (Some err, w1)
  end.

(** The shared loop calls the primitive of each machine, in list order and
    each in the world the previous call left, until one returns an error. *)
Lemma each_world op ev on_container on_vm :
  (forall c, op (ContainerMachine c) = on_container c) ->
  (forall vm, op (VMMachine vm) = on_vm vm) ->
  forall ms e w,
    let '(out, e1, w1, log) := each op ev ms e w in
    e1 = e
    /\ ((out = Ret tt
         /\ all_nil on_container on_vm ms w w1
         /\ log = map (fun m => ev m None) ms)
        \/ (exists pre m post err wk,
              ms = pre ++ m :: post
              /\ all_nil on_container on_vm pre w wk
              /\ refuses on_container on_vm m wk err w1
              /\ log = map (fun m => ev m None) pre ++ [ev m (Some err)]
              /\ out = Fail err)).
Proof.
  intros Hc Hv. induction ms as [|m rest IH]; intros e w; simpl.
  - split; [done|]. left. split_and!; [done| |done]. constructor.
  - unfold bind, check. destruct (op m w) as [[err|] wm] eqn:Hop.
    + split; [done|]. right. exists [], m, rest, err, w.
      split_and!; [done|constructor| |done|done].
      destruct m; simpl; by rewrite <- ?Hc, <- ?Hv.
    + specialize (IH e wm).
      destruct (each op ev rest e wm) as [[[out e2] w2] log2].
      destruct IH as [-> [(-> & Hall & ->)|(pre & m' & post & err & wk & -> & Hall
                                           & Href & -> & ->)]];
        (split; [done|]).
      * left. split_and!; [done| |done].
        destruct m; [apply all_nil_container with wm|apply all_nil_vm with wm];
          try done; by rewrite <- ?Hc, <- ?Hv.
      * right. exists (m :: pre), m', post, err, wk.
        split_and!; [done| |done|done|done].
        destruct m; [apply all_nil_container with wm|apply all_nil_vm with wm];
          try done; by rewrite <- ?Hc, <- ?Hv.
Qed.

(** C6: [Close] calls the release primitive on the machines in list
    order, each in the world the previous call left.  Either every call
    returns nil, and then [Close] returns nil and the machine list is
    empty; or some call returns an error, and then that call is the last
    one made (the world is left as that call left it), [Close] returns its
    error and the machine list is what it was. *)
Theorem Close_fail_fast e w out e1 w1 log :
  Close e w = (out, e1, w1, log) ->
  (out = Ret tt
   /\ all_nil virtual.Close virtual.Close (machines e) w w1
   /\ log = map (fun m => EvClose m None) (machines e)
   /\ machines e1 = [])
  \/ (exists pre m post err wk,
        machines e = pre ++ m :: post
        /\ all_nil virtual.Close virtual.Close pre w wk
        /\ refuses virtual.Close virtual.Close m wk err w1
        /\ log = map (fun m => EvClose m None) pre ++ [EvClose m (Some err)]
        /\ out = Fail err
        /\ machines e1 = machines e).
Proof.
  unfold Close, bind at 1, get, bind, modify, ret.
  pose proof (each_world machine_Close EvClose virtual.Close virtual.Close
                (fun _ => eq_refl) (fun _ => eq_refl) (machines e) e w) as Hr.
  destruct (each _ _ _ e w) as [[[o ea] wa] la].
  destruct Hr as [-> [(-> & Hall & ->)|(pre & m & post & err & wk & Hms & Hall
                                        & Href & -> & ->)]].
  - intros [= <- <- <- <-]. left. by rewrite app_nil_r.
  - intros [= <- <- <- <-]. right. by exists pre, m, post, err, wk.
Qed.

Lemma each_run_stops ms out log :
  each_run EvStop ms out log -> Forall (fun ev => is_stop ev = true) log.
Proof.
  destruct 1 as [|pre m post err _].
  - by apply Forall_map, Forall_true.
  - apply Forall_app. split; [by apply Forall_map, Forall_true|].
    by repeat constructor.
Qed.

Lemma each_run_starts ms out log :
  each_run EvStart ms out log -> Forall (fun ev => is_start ev = true) log.
Proof.
  destruct 1 as [|pre m post err _].
  - by apply Forall_map, Forall_true.
  - apply Forall_app. split; [by apply Forall_map, Forall_true|].
    by repeat constructor.
Qed.

Lemma each_run_failed ev ms out log m err :
  (forall m1 m2 r1 r2, ev m1 r1 = ev m2 r2 -> r1 = r2) ->
  each_run ev ms out log -> In (ev m (Some err)) log -> out = Fail err.
Proof.
  intros Hinj [|pre m' post err' _] Hin.
  - apply in_map_iff in Hin as (m1 & Heq & _). by apply Hinj in Heq.
  - apply in_app_iff in Hin as [Hin|[Heq|[]]].
    + apply in_map_iff in Hin as (m1 & Heq & _). by apply Hinj in Heq.
    + apply Hinj in Heq. by simplify_eq.
Qed.

(** C7: the calls of a [Restart] are stop calls followed by start calls.
    A start call is only made once every machine was stopped without
    error, and if a stop call returns an error then [Restart] returns that
    error and makes no start call. *)
Theorem Restart_stops_before_starts e w out e1 w1 log :
  Restart e w = (out, e1, w1, log) ->
  exists stops starts,
    log = stops ++ starts
    /\ Forall (fun ev => is_stop ev = true) stops
    /\ Forall (fun ev => is_start ev = true) starts
    /\ (starts <> [] -> stops = map (fun m => EvStop m None) (machines e))
    /\ (forall m err, In (EvStop m (Some err)) log -> out = Fail err /\ starts = []).
Proof.
  unfold Restart, bind at 1.
  destruct (Stop e w) as [[[o1 ea] wa] la] eqn:Hstop.
  apply Stop_runs in Hstop as [-> Hs].
  pose proof (each_run_stops _ _ _ Hs) as Hall.
  destruct o1 as [[]|err|at_].
  - unfold bind, ret.
    destruct (Start e wa) as [[[o2 eb] wb] lb] eqn:Hstart.
    apply Start_runs in Hstart as [-> Hst].
    pose proof (each_run_starts _ _ _ Hst) as Hall2.
    assert (Hla : la = map (fun m => EvStop m None) (machines e))
      by (by inversion Hs).
    assert (Hno : forall m err', ~ In (EvStop m (Some err')) (la ++ lb)).
    { intros m err' Hin.
      apply in_app_iff in Hin as [Hin|Hin].
      - rewrite Hla in Hin. apply in_map_iff in Hin as (? & ? & _). done.
      - rewrite List.Forall_forall in Hall2. by apply Hall2 in Hin. }
    destruct o2 as [[]|err|at_]; intros [= <- <- <- <-];
      exists la, lb; rewrite ?app_nil_r; split_and!; try done;
      intros m err' Hin; by destruct (Hno m err').
  - intros [= <- <- <- <-]. exists la, []. rewrite app_nil_r.
    split_and!; try done.
    intros m err' Hin. split; [|done].
    eapply each_run_failed; [|done..]. by intros ? ? ? ? [= _ ->].
  - by inversion Hs.
Qed.

(** C10: on the reuse path ([ips] is not nil), a table with one entry per
    container spec is never indexed out of range.  A table with fewer
    entries makes it impossible for [Create] to return nil: the only
    out-of-range access to the table is at position [length t], and that
    access is reached, and panics before anything is stored in the
    controller, when no collaborator call fails earlier. *)
Theorem Create_ips_indexing e w t out e1 w1 log :
  ips e = Some t ->
  Create e w = (out, e1, w1, log) ->
  (length t = length (ContainerOpts (conf e)).1 ->
     forall j, out <> Panic (IpsAt j))
  /\ (length t < length (ContainerOpts (conf e)).1 ->
        out <> Ret tt
        /\ (forall j, out = Panic (IpsAt j) -> j = length t)
        /\ (docker_reliable -> net_reliable ->
            length t <= length (ContainerOpts (conf e)).2 ->
            out = Panic (IpsAt (length t))
            /\ machines e1 = machines e /\ ips e1 = ips e)).
Proof.
  intros Ht Hrun. apply Create_runs in Hrun. split.
  - intros Hlen j ->.
    inversion Hrun as [|? ? ? ? Hl| |]; subst.
    eapply containers_run_no_ips_panic; [exact Hl| |done].
    rewrite Ht. simpl. lia.
  - intros Hlen.
    destruct Hrun as [? ? ? ? Hl|? ? ? ? Hl|? ? ? ? ? ? ? ? Hl Hv|? ? ? ? ? ? ? ? Hl Hv];
      pose proof (containers_run_frame _ _ _ _ _ _ _ _ _ _ _ Hl) as (_ & Hm & Hi & _);
      destruct (containers_run_short _ _ _ _ _ _ _ _ _ _ _ t Hl Ht) as (Hnr & Hat & Hp);
      try lia.
    + split_and!; [done..|]. intros Hd Hn Hrec. by specialize (Hp Hd Hn Hrec).
    + split_and!; [done| |].
      * intros j [= ->]. by apply Hat.
      * intros Hd Hn Hrec. injection (Hp Hd Hn Hrec) as ->. done.
    + by destruct (Hnr (ms, newIps)).
    + by destruct (Hnr (ms, newIps)).
Qed.

(** *** Further properties of the lifecycle operations *)

Definition is_instance_call (ev : Event) : bool :=
  match ev with
  | EvStart _ _ | EvStop _ _ | EvClose _ _ => true
  | _ => false
  end.

(** A caller that runs operations one after the other, whatever each of
    them returns, and collects the outcomes. *)
Fixpoint run_all (ops : list (M unit)) (e : exercise) (w : W)
    : list (Outcome unit) * exercise * W :=
  match ops with
  | [] => ([], e, w)
  | op :: rest =>
      let '(out, e1, w1, _) := op e w in
      let '(outs, e2, w2) := run_all rest e1 w1 in
      (out :: outs, e2, w2)
  end.

(** X1: [Start] calls [Start] on the machines in list order, each in the
    world the previous call left, and stops at the first error, which it
    returns; the machines after the failing one are not touched (the world
    is left as the failing call left it) and no field of the controller
    changes. *)
Theorem Start_fail_fast e w out e1 w1 log :
  Start e w = (out, e1, w1, log) ->
  e1 = e
  /\ ((out = Ret tt
       /\ all_nil virtual.Start virtual.Start (machines e) w w1
       /\ log = map (fun m => EvStart m None) (machines e))
      \/ (exists pre m post err wk,
            machines e = pre ++ m :: post
            /\ all_nil virtual.Start virtual.Start pre w wk
            /\ refuses virtual.Start virtual.Start m wk err w1
            /\ log = map (fun m => EvStart m None) pre ++ [EvStart m (Some err)]
            /\ out = Fail err)).
Proof.
  unfold Start, bind at 1, get, bind, ret.
  pose proof (each_world machine_Start EvStart virtual.Start virtual.Start
                (fun _ => eq_refl) (fun _ => eq_refl) (machines e) e w) as Hr.
  destruct (each _ _ _ e w) as [[[o ea] wa] la].
  destruct Hr as [-> [(-> & Hall & ->)|(pre & m & post & err & wk & Hms & Hall
                                        & Href & -> & ->)]].
  - intros [= <- <- <- <-]. split; [done|]. left. by rewrite app_nil_r.
  - intros [= <- <- <- <-]. split; [done|]. right.
    by exists pre, m, post, err, wk.
Qed.

(** X2: [Stop] calls [Stop] on the machines in list order, each in the
    world the previous call left, and stops at the first error, which it
    returns; the machines after the failing one are not touched (the world
    is left as the failing call left it) and no field of the controller
    changes. *)
Theorem Stop_fail_fast e w out e1 w1 log :
  Stop e w = (out, e1, w1, log) ->
  e1 = e
  /\ ((out = Ret tt
       /\ all_nil virtual.Stop virtual.Stop (machines e) w w1
       /\ log = map (fun m => EvStop m None) (machines e))
      \/ (exists pre m post err wk,
            machines e = pre ++ m :: post
            /\ all_nil virtual.Stop virtual.Stop pre w wk
            /\ refuses virtual.Stop virtual.Stop m wk err w1
            /\ log = map (fun m => EvStop m None) pre ++ [EvStop m (Some err)]
            /\ out = Fail err)).
Proof.
  unfold Stop, bind at 1, get, bind, ret.
  pose proof (each_world machine_Stop EvStop virtual.Stop virtual.Stop
                (fun _ => eq_refl) (fun _ => eq_refl) (machines e) e w) as Hr.
  destruct (each _ _ _ e w) as [[[o ea] wa] la].
  destruct Hr as [-> [(-> & Hall & ->)|(pre & m & post & err & wk & Hms & Hall
                                        & Href & -> & ->)]].
  - intros [= <- <- <- <-]. split; [done|]. left. by rewrite app_nil_r.
  - intros [= <- <- <- <-]. split; [done|]. right.
    by exists pre, m, post, err, wk.
Qed.

(** X3: once [Close] has returned nil, [Start], [Stop], [Restart] and a
    second [Close] all return nil without calling anything and without
    changing the controller, in whatever state the world is. *)
Theorem closed_controller_is_idle e w e1 w1 log w2 :
  Close e w = (Ret tt, e1, w1, log) ->
  Start e1 w2 = (Ret tt, e1, w2, [])
  /\ Stop e1 w2 = (Ret tt, e1, w2, [])
  /\ Restart e1 w2 = (Ret tt, e1, w2, [])
  /\ Close e1 w2 = (Ret tt, e1, w2, []).
Proof.
  intros Hrun. apply Close_runs in Hrun as [_ ->]. by split_and!.
Qed.

Lemma Create_run_calls e w out e1 w1 log :
  Create_run e w out e1 w1 log ->
  Forall (fun ev => is_instance_call ev = false) log.
Proof.
  assert (Hstep : forall i spec records newIps e0 w0 o e' w' l,
            container_run i spec records newIps e0 w0 o e' w' l ->
            Forall (fun ev => is_instance_call ev = false) l).
  { intros ? ? ? ? ? ? ? ? ? ? []; by repeat constructor. }
  assert (Hloop : forall records i containers ms newIps e0 w0 o e' w' l,
            containers_run records i containers ms newIps e0 w0 o e' w' l ->
            Forall (fun ev => is_instance_call ev = false) l).
  { induction 1 as [| ? ? ? ? ? ? ? ? ? ? ? Hs | ? ? ? ? ? ? ? ? ? ? ? Hs
                   | ? ? ? ? ? ? ? ? ? ? ? ? ? ? ? ? Hs _ IH];
      [constructor|by eapply Hstep..|].
    apply Forall_app. split; [by eapply Hstep|done]. }
  assert (Hvms : forall specs ms e0 w0,
            Forall (fun ev => is_instance_call ev = false)
              (calls_of (create_vms specs ms e0 w0))).
  { induction specs as [|spec rest IH]; intros ms e0 w0; simpl; [constructor|].
    unfold bind, try, calls_of.
    destruct (vbox.GetCopy _ _ w0) as [[vm|err] wv]; simpl;
      [|by repeat constructor].
    specialize (IH (ms ++ [VMMachine vm]) e0 wv). unfold calls_of in IH.
    destruct (create_vms rest _ e0 wv) as [[[o e'] w'] l]. simpl in *.
    by constructor. }
  destruct 1 as [? ? ? ? Hl|? ? ? ? Hl|ms ? ? ? ? ? ? ? Hl Hv|ms ? ? ? ? ? ? ? Hl Hv];
    try (by eapply Hloop); apply Forall_app; (split; [by eapply Hloop|]).
  - specialize (Hvms (VBoxConfig (conf e)) ms e1 w1). by rewrite Hv in Hvms.
  - specialize (Hvms (VBoxConfig (conf e)) ms e1 w1). by rewrite Hv in Hvms.
Qed.

(** X4: [Create] never starts, stops or releases an instance, however it
    ends.  Whenever it returns nil, the machine list is replaced (not
    extended) by the containers of this call, in the order of the container
    specs, followed by the virtual machines of this call, in the order of
    the VM specs; the machines listed before the call are dropped without
    being released. *)
Theorem Create_replaces_machines e w out e1 w1 log :
  Create e w = (out, e1, w1, log) ->
  Forall (fun ev => is_instance_call ev = false) log
  /\ (out = Ret tt ->
      machines e1 = map ContainerMachine (created log) ++ map VMMachine (copied log)
      /\ length (machines e1)
         = length (ContainerOpts (conf e)).1 + length (VBoxConfig (conf e))
      /\ create_calls log = served (dnsIP e) (ContainerOpts (conf e)).1 (created log)
      /\ copy_calls log = cloned (VBoxConfig (conf e)) (copied log)).
Proof.
  intros Hrun. apply Create_runs in Hrun.
  split; [by eapply Create_run_calls|]. intros ->.
  inversion Hrun as [| | |ms newIps ec wc logc ms1 wv logv Hl Hv]; subst.
  pose proof (create_vms_run (VBoxConfig (conf e)) ms ec wc) as Hvm.
  rewrite Hv in Hvm. destruct Hvm as (_ & Hcr & Hcc & _ & _ & Hret & _).
  destruct (Hret ms1 eq_refl) as (-> & Hcp & Hlv).
  pose proof (containers_run_ret _ _ _ _ _ _ _ _ _ _ _ _ Hl)
    as (-> & Hcalls & Hlc & _ & Hcp1 & Hcd1 & _ & _).
  rewrite created_app, copied_app, create_calls_app, copy_calls_app.
  rewrite Hcr, Hcc, Hcp1, Hcd1, !app_nil_r. simpl.
  rewrite length_app, !length_map, Hlc, Hlv.
  by split_and!.
Qed.

(** X5: [Create] is all or nothing on the machine list and on the IP
    table: whenever it does not return nil, be it for a failed
    provisioning, connection or clone call or for an index out of range,
    both are what they were before the call, and so are the specification
    and the resolver address.  (The record set may have grown.) *)
Theorem Create_abort_keeps_state e w out e1 w1 log :
  Create e w = (out, e1, w1, log) ->
  out <> Ret tt ->
  machines e1 = machines e /\ ips e1 = ips e
  /\ conf e1 = conf e /\ dnsIP e1 = dnsIP e.
Proof.
  intros Hrun Hout. apply Create_runs in Hrun.
  pose proof (Create_run_frame _ _ _ _ _ _ Hrun) as (? & ? & _).
  by apply Create_run_abort in Hrun as [? ?].
Qed.

(** X6: a [Create] that returns nil asked the network, container after
    container, for the octets stored in the IP table when the table is not
    nil, and then leaves the table as it is even if the network answered
    with other octets; from a nil table it asked for no particular octet
    and stores the octets it was given. *)
Theorem Create_reuses_octets e w e1 w1 log :
  Create e w = (Ret tt, e1, w1, log) ->
  match ips e with
  | Some t =>
      connect_requests log = map Some (take (length (ContainerOpts (conf e)).1) t)
      /\ ips e1 = Some t
  | None =>
      connect_requests log = replicate (length (ContainerOpts (conf e)).1) None
      /\ ips e1 = append_ips None (connected log)
  end.
Proof.
  intros Hrun. apply Create_runs in Hrun.
  pose proof (Create_run_requests _ _ _ _ _ Hrun) as Hreq.
  destruct (ips e) as [t|] eqn:Ht.
  - split; [done|]. by eapply Create_run_ips_kept.
  - split; [done|]. by apply Create_run_ips_fresh in Hrun as [? _].
Qed.

(** X7: the three phases of [Reset].  If a release fails, [Reset] returns
    its error, nothing is provisioned and the controller is unchanged.
    Otherwise every machine was released and [Create] runs on the emptied
    controller; if it does not return nil, [Reset] ends with its outcome,
    without any start call and with an empty machine list.  Otherwise
    [Reset] ends as [Start] on the new machines ends. *)
Theorem Reset_phases e w out e2 w2 log :
  Reset e w = (out, e2, w2, log) ->
  (exists pre m post err,
     machines e = pre ++ m :: post
     /\ log = map (fun m => EvClose m None) pre ++ [EvClose m (Some err)]
     /\ out = Fail err /\ e2 = e)
  \/ (exists wa oc eb wb lb,
        Close e w = (Ret tt, set_machines [] e, wa,
                     map (fun m => EvClose m None) (machines e))
        /\ Create (set_machines [] e) wa = (oc, eb, wb, lb)
        /\ ((oc <> Ret tt
             /\ out = oc /\ e2 = eb /\ w2 = wb
             /\ log = map (fun m => EvClose m None) (machines e) ++ lb
             /\ machines e2 = [] /\ ips e2 = ips e)
            \/ (oc = Ret tt
                /\ exists ls,
                     Start eb wb = (out, e2, w2, ls)
                     /\ e2 = eb
                     /\ log = map (fun m => EvClose m None) (machines e)
                              ++ lb ++ ls))).
Proof.
  unfold Reset, bind at 1.
  destruct (Close e w) as [[[o1 ea] wa] la] eqn:Hclose.
  pose proof (Close_runs _ _ _ _ _ _ Hclose) as [Hcl Hea].
  destruct o1 as [[]|err|at_]; [|intros [= <- <- <- <-]|by inversion Hcl].
  - assert (la = map (fun m => EvClose m None) (machines e)) as ->
      by (by inversion Hcl).
    subst ea. unfold bind at 1.
    destruct (Create (set_machines [] e) wa) as [[[oc eb] wb] lb] eqn:Hcreate.
    right. exists wa, oc, eb, wb, lb. split_and!; [done..|].
    destruct oc as [[]|err|at_].
    + right. split; [done|]. revert H. unfold bind, ret.
      destruct (Start eb wb) as [[[os es] ws] ls] eqn:Hstart.
      pose proof (Start_runs _ _ _ _ _ _ Hstart) as [-> Hst].
      destruct os as [[]|err|at_]; intros [= <- <- <- <-];
        exists ls; by rewrite ?app_nil_r.
    + left. injection H as <- <- <- <-.
      apply Create_runs in Hcreate.
      apply Create_run_abort in Hcreate as [-> ->]; done.
    + left. injection H as <- <- <- <-.
      apply Create_runs in Hcreate.
      apply Create_run_abort in Hcreate as [-> ->]; done.
  - left. inversion Hcl as [|pre m post err' Hms]; subst.
    by exists pre, m, post, err.
Qed.

(** An operation that keeps the IP table aligned and never indexes it out
    of range. *)
Definition ips_safe {A} (m : M A) : Prop :=
  forall e w,
    ips_aligned e ->
    ips_aligned (state_of (m e w))
    /\ forall j, outcome_of (m e w) <> Panic (IpsAt j).

Lemma bind_ips_safe {A B} (m : M A) (k : A -> M B) :
  ips_safe m -> (forall a, ips_safe (k a)) -> ips_safe (bind m k).
Proof.
  intros Hm Hk e w He. destruct (Hm e w He) as [Hm1 Hm2].
  unfold bind, state_of, outcome_of in *.
  destruct (m e w) as [[[[a|err|at_] e1] w1] l1]; simpl in *.
  - destruct (Hk a e1 w1 Hm1) as [Hk1 Hk2]. unfold state_of, outcome_of in *.
    by destruct (k a e1 w1) as [[[o e2] w2] l2].
  - done.
  - split; [done|]. intros j [= ->]. by apply (Hm2 j).
Qed.

Lemma lifecycle_ips_safe (op : M unit) :
  In op [Create; Start; Stop; Close; Restart; Reset] -> ips_safe op.
Proof.
  assert (Hcreate : ips_safe Create).
  { intros e w He. split.
    - apply (Create_keeps_ips_aligned e w (outcome_of (Create e w)) _
               (world_of (Create e w)) (calls_of (Create e w))); [|done].
      apply run_components.
    - intros j Hj. pose proof (run_components (Create e w)) as Hrun.
      rewrite Hj in Hrun. apply Create_runs in Hrun.
      inversion Hrun as [|? ? ? ? Hl| |]; subst.
      eapply containers_run_no_ips_panic; [exact Hl|exact He|done]. }
  assert (Hstart : ips_safe Start).
  { intros e w He.
    destruct (Start_runs e w _ _ _ _ (run_components (Start e w))) as [-> Hr].
    split; [done|]. intros j Hj. rewrite Hj in Hr. inversion Hr. }
  assert (Hstop : ips_safe Stop).
  { intros e w He.
    destruct (Stop_runs e w _ _ _ _ (run_components (Stop e w))) as [-> Hr].
    split; [done|]. intros j Hj. rewrite Hj in Hr. inversion Hr. }
  assert (Hclose : ips_safe Close).
  { intros e w He.
    destruct (Close_runs e w _ _ _ _ (run_components (Close e w))) as [Hr ->].
    split; [by destruct (outcome_of (Close e w))|].
    intros j Hj. rewrite Hj in Hr. inversion Hr. }
  assert (Hret : ips_safe (ret tt)) by done.
  intros [<-|[<-|[<-|[<-|[<-|[<-|[]]]]]]]; try done.
  - apply bind_ips_safe; [done|]. intros _. apply bind_ips_safe; [done|]. by intros _.
  - apply bind_ips_safe; [done|]. intros _. apply bind_ips_safe; [done|]. intros _.
    apply bind_ips_safe; [done|]. by intros _.
Qed.

(** X8: a controller whose IP table is nil or has an entry for every
    container spec (in particular a new controller, whose table is nil)
    never indexes the table out of range, whatever sequence of lifecycle
    operations is run on it and whatever these operations return; the
    table stays nil or aligned throughout. *)
Theorem lifecycle_never_indexes_out_of_range ops e w :
  Forall (fun op => In op [Create; Start; Stop; Close; Restart; Reset]) ops ->
  ips_aligned e ->
  Forall (fun out => forall j, out <> Panic (IpsAt j)) (run_all ops e w).1.1
  /\ ips_aligned (run_all ops e w).1.2.
Proof.
  intros Hops. revert e w.
  induction Hops as [|op rest Hop _ IH]; intros e w He; simpl; [by split|].
  destruct (lifecycle_ips_safe op Hop e w He) as [He1 Hout].
  unfold state_of, outcome_of in *.
  destruct (op e w) as [[[out e1] w1] l1]. simpl in *.
  specialize (IH e1 w1 He1).
  destruct (run_all rest e1 w1) as [[outs e2] w2]. simpl in *.
  destruct IH as [IH1 IH2]. split; [by constructor|done].
Qed.

(** X9: no lifecycle operation, however it ends, removes or reorders a
    DNS record: the record set before the call is a prefix of the record
    set after it, and only [Create] and [Reset] can make it longer. *)
Theorem lifecycle_keeps_records (op : M unit) e w :
  In op [Create; Start; Stop; Close; Restart; Reset] ->
  dnsRecords e `prefix_of` dnsRecords (state_of (op e w))
  /\ (In op [Start; Stop; Close; Restart] ->
      dnsRecords (state_of (op e w)) = dnsRecords e).
Proof.
  intros Hop.
  assert (Hcreate : forall e0 w0,
            dnsRecords e0 `prefix_of` dnsRecords (state_of (Create e0 w0))).
  { intros e0 w0. pose proof (run_components (Create e0 w0)) as Hrun.
    apply Create_runs, Create_run_frame in Hrun as (_ & _ & ->).
    by apply prefix_app_r. }
  assert (Hstart : forall e0 w0, state_of (Start e0 w0) = e0)
    by (intros e0 w0;
        by destruct (Start_runs e0 w0 _ _ _ _ (run_components (Start e0 w0)))).
  assert (Hstop : forall e0 w0, state_of (Stop e0 w0) = e0)
    by (intros e0 w0;
        by destruct (Stop_runs e0 w0 _ _ _ _ (run_components (Stop e0 w0)))).
  assert (Hclose : forall e0 w0,
            dnsRecords (state_of (Close e0 w0)) = dnsRecords e0).
  { intros e0 w0.
    destruct (Close_runs e0 w0 _ _ _ _ (run_components (Close e0 w0))) as [_ ->].
    by destruct (outcome_of (Close e0 w0)). }
  assert (Hrestart : forall e0 w0,
            dnsRecords (state_of (Restart e0 w0)) = dnsRecords e0).
  { intros e0 w0.
    apply (bind_keeps (fun e' => dnsRecords e' = dnsRecords e0)); [| |done].
    - intros e' w' <-. by rewrite Hstop.
    - intros _ e' w' He'.
      apply (bind_keeps (fun e' => dnsRecords e' = dnsRecords e0)); [| |done].
      + intros e'' w'' <-. by rewrite Hstart.
      + by intros _ e'' w'' <-. }
  split.
  - destruct Hop as [<-|[<-|[<-|[<-|[<-|[<-|[]]]]]]].
    + apply Hcreate.
    + by rewrite Hstart.
    + by rewrite Hstop.
    + by rewrite Hclose.
    + by rewrite Hrestart.
    + apply (bind_keeps (fun e' => dnsRecords e `prefix_of` dnsRecords e'));
        [| |done].
      * intros e' w' He'. by rewrite Hclose.
      * intros _ e' w' He'.
        apply (bind_keeps (fun e' => dnsRecords e `prefix_of` dnsRecords e'));
          [| |done].
        -- intros e'' w'' He''. etrans; [done|]. apply Hcreate.
        -- intros _ e'' w'' He''.
           apply (bind_keeps (fun e' => dnsRecords e `prefix_of` dnsRecords e'));
             [| |done].
           ++ intros e3 w3 He3. by rewrite Hstart.
           ++ by intros _ e3 w3 He3.
  - intros [<-|[<-|[<-|[<-|[]]]]].
    + by rewrite Hstart.
    + by rewrite Hstop.
    + by rewrite Hclose.
    + by rewrite Hrestart.
Qed.

End Controller.

Arguments Ret {Error A} a.
Arguments Fail {Error A} err.
Arguments Panic {Error A} at_.

End exercise.

(** ** The tag pattern of package exercise *)
Module tag.

Local Open Scope char_scope.

(** A regular expression over bytes.  A string of Go is a sequence of
    bytes; every class of [tagRawRegexp] is within ASCII, so no byte of a
    multi-byte rune is in any of them. *)
Inductive regexp :=
| Never
| Empty
| Class (ranges : list (ascii * ascii))
| Cat (r1 r2 : regexp)
| Alt (r1 r2 : regexp)
| Star (r : regexp).

Definition in_range (c : ascii) (range : ascii * ascii) : bool :=
  (N_of_ascii (fst range) <=? N_of_ascii c)%N
  && (N_of_ascii c <=? N_of_ascii (snd range))%N.

Definition in_class (ranges : list (ascii * ascii)) (c : ascii) : bool :=
  existsb (in_range c) ranges.

(** Does the expression accept the empty string? *)
Fixpoint nullable (r : regexp) : bool :=
  match r with
  | Never => false
  | Empty => true
  | Class _ => false
  | Cat r1 r2 => nullable r1 && nullable r2
  | Alt r1 r2 => nullable r1 || nullable r2
  | Star _ => true
  end.

(** What is left to match once the byte [c] has been read. *)
Fixpoint after (c : ascii) (r : regexp) : regexp :=
  match r with
  | Never => Never
  | Empty => Never
  | Class ranges => if in_class ranges c then Empty else Never
  | Cat r1 r2 =>
      if nullable r1 then Alt (Cat (after c r1) r2) (after c r2)
      else Cat (after c r1) r2
  | Alt r1 r2 => Alt (after c r1) (after c r2)
  | Star r1 => Cat (after c r1) (Star r1)
  end.

(** Matching of a whole string, byte by byte. *)
Fixpoint accepts (r : regexp) (s : list ascii) : bool :=
  match s with
  | [] => nullable r
  | c :: rest => accepts (after c r) rest
  end.

(** [tagRawRegexp], that is [^[a-z0-9][a-z0-9-]*[a-z0-9]$], compiled.  The
    two anchors make [MatchString] a match of the whole string ([$] without
    the [m] flag only matches at the end of the text). *)
Definition tagRegex : regexp :=
  Cat (Class [("a", "z"); ("0", "9")])
    (Cat (Star (Class [("a", "z"); ("0", "9"); ("-", "-")]))
       (Class [("a", "z"); ("0", "9")])).

(** [tagRegex.MatchString(s)], the tag validator. *)
Definition MatchString (s : string) : bool :=
  accepts tagRegex (list_ascii_of_string s).

(** *** The rule in the words of the specification *)

Definition lower_or_digit (c : ascii) : bool :=
  in_range c ("a", "z") || in_range c ("0", "9").

Definition lower_digit_or_hyphen (c : ascii) : bool :=
  lower_or_digit c || Ascii.eqb c "-".

(** Starts and ends with a lowercase letter or digit, interior characters
    are lowercase letters, digits or hyphens, length at least 2. *)
Definition valid_tag (s : string) : Prop :=
  let l := list_ascii_of_string s in
  2 <= length l
  /\ (exists a, head l = Some a /\ lower_or_digit a = true)
  /\ (exists b, last l = Some b /\ lower_or_digit b = true)
  /\ (forall i c, 0 < i -> i < length l - 1 -> l !! i = Some c ->
        lower_digit_or_hyphen c = true).

(** *** The language of an expression *)

Fixpoint lang (r : regexp) (s : list ascii) : Prop :=
  match r with
  | Never => False
  | Empty => s = []
  | Class ranges => exists c, s = [c] /\ in_class ranges c = true
  | Cat r1 r2 => exists s1 s2, s = s1 ++ s2 /\ lang r1 s1 /\ lang r2 s2
  | Alt r1 r2 => lang r1 s \/ lang r2 s
  | Star r1 => exists pieces, s = concat pieces /\ Forall (lang r1) pieces
  end.

Lemma nullable_lang r : nullable r = true <-> lang r [].
Proof.
  induction r as [| |ranges|r1 IH1 r2 IH2|r1 IH1 r2 IH2|r IH]; simpl.
  - done.
  - done.
  - split; [done|]. by intros (c & ? & _).
  - rewrite andb_true_iff, IH1, IH2. split.
    + intros [? ?]. by exists [], [].
    + intros (s1 & s2 & Heq & ? & ?). symmetry in Heq.
      apply app_eq_nil in Heq as [-> ->]. done.
  - by rewrite orb_true_iff, IH1, IH2.
  - split; [|done]. intros _. by exists [].
Qed.

Lemma star_cons r c s :
  lang (Star r) (c :: s) ->
  exists s1 s2, s = s1 ++ s2 /\ lang r (c :: s1) /\ lang (Star r) s2.
Proof.
  intros (pieces & Heq & Hall).
  induction Hall as [|piece pieces Hp Hall IH]; [done|].
  destruct piece as [|c' piece]; simpl in Heq.
  - by apply IH.
  - injection Heq as <- ->. exists piece, (concat pieces).
    split_and!; [done..|]. by exists pieces.
Qed.

Lemma after_lang r : forall c s, lang (after c r) s <-> lang r (c :: s).
Proof.
  induction r as [| |ranges|r1 IH1 r2 IH2|r1 IH1 r2 IH2|r IH]; intros c s; simpl.
  - done.
  - done.
  - destruct (in_class ranges c) eqn:Hc; simpl.
    + split.
      * intros ->. by exists c.
      * by intros (c' & [= <- ->] & _).
    + split; [done|]. intros (c' & [= <- ->] & ?). congruence.
  - assert (Hcat : lang (Cat (after c r1) r2) s
                   <-> exists s1 s2, s = s1 ++ s2 /\ lang r1 (c :: s1) /\ lang r2 s2).
    { simpl. split; intros (s1 & s2 & ? & ? & ?); exists s1, s2;
        split_and!; try done; by apply IH1. }
    destruct (nullable r1) eqn:Hn.
    + change (lang (Cat (after c r1) r2) s \/ lang (after c r2) s
              <-> lang (Cat r1 r2) (c :: s)).
      rewrite Hcat, IH2. simpl. split.
      * intros [(s1 & s2 & -> & ? & ?)|?].
        -- by exists (c :: s1), s2.
        -- exists [], (c :: s). split_and!; [done| |done]. by apply nullable_lang.
      * intros (s1 & s2 & Heq & H1 & H2). destruct s1 as [|c' s1]; simpl in Heq.
        -- right. by subst.
        -- injection Heq as <- ->. left. by exists s1, s2.
    + rewrite Hcat. simpl. split.
      * intros (s1 & s2 & -> & ? & ?). by exists (c :: s1), s2.
      * intros (s1 & s2 & Heq & H1 & H2). destruct s1 as [|c' s1]; simpl in Heq.
        -- apply nullable_lang in H1. congruence.
        -- injection Heq as <- ->. by exists s1, s2.
  - by rewrite IH1, IH2.
  - split.
    + intros (s1 & s2 & -> & H1 & pieces & -> & Hall).
      exists ((c :: s1) :: pieces). split; [done|].
      constructor; [by apply IH|done].
    + intros Hs. apply star_cons in Hs as (s1 & s2 & -> & H1 & H2).
      exists s1, s2. split_and!; [done| |done]. by apply IH.
Qed.

(** The matcher decides the language. *)
Lemma accepts_lang s : forall r, accepts r s = true <-> lang r s.
Proof.
  induction s as [|c s IH]; intros r; simpl.
  - apply nullable_lang.
  - by rewrite IH, after_lang.
Qed.

Lemma star_class_lang ranges s :
  lang (Star (Class ranges)) s <-> Forall (fun c => in_class ranges c = true) s.
Proof.
  split.
  - intros (pieces & -> & Hall).
    induction Hall as [|piece pieces (c & -> & Hc) _ IH]; simpl; by constructor.
  - intros Hall. exists (map (fun c => [c]) s). split.
    + induction s as [|c s IH]; simpl; [done|].
      f_equal. apply IH. by inversion Hall.
    + induction Hall as [|c s Hc _ IH]; simpl; constructor; [|done].
      by exists c.
Qed.

Lemma head_class c : in_class [("a", "z"); ("0", "9")] c = lower_or_digit c.
Proof. unfold in_class, lower_or_digit. cbn [existsb]. by rewrite orb_false_r. Qed.

Lemma body_class c :
  in_class [("a", "z"); ("0", "9"); ("-", "-")] c = lower_digit_or_hyphen c.
Proof.
  unfold in_class, lower_digit_or_hyphen, lower_or_digit. cbn [existsb].
  rewrite orb_false_r, orb_assoc. f_equal.
  unfold in_range; cbn [fst snd].
  destruct (Ascii.eqb_spec c "-") as [->|Hne]; [done|].
  apply andb_false_iff.
  destruct (N.leb_spec (N_of_ascii "-") (N_of_ascii c)) as [Hlo|]; [|by left].
  destruct (N.leb_spec (N_of_ascii c) (N_of_ascii "-")) as [Hhi|]; [|by right].
  exfalso. apply Hne. rewrite <- (ascii_N_embedding c).
  assert (N_of_ascii c = N_of_ascii "-") as -> by lia.
  apply ascii_N_embedding.
Qed.

(** The strings of [tagRegex]: a first byte, a middle and a last byte. *)
Lemma tagRegex_lang s :
  lang tagRegex s
  <-> exists a mid b,
        s = a :: mid ++ [b]
        /\ lower_or_digit a = true
        /\ Forall (fun c => lower_digit_or_hyphen c = true) mid
        /\ lower_or_digit b = true.
Proof.
  unfold tagRegex.
  change (lang (Cat ?r1 (Cat ?r2 ?r3)) s)
    with (exists s1 s2, s = s1 ++ s2 /\ lang r1 s1
            /\ exists s3 s4, s2 = s3 ++ s4 /\ lang r2 s3 /\ lang r3 s4).
  split.
  - intros (s1 & s2 & -> & (a & -> & Ha) & s3 & s4 & -> & Hmid & (b & -> & Hb)).
    apply star_class_lang in Hmid. rewrite head_class in Ha, Hb.
    exists a, s3, b. split_and!; try done.
    eapply Forall_impl; [exact Hmid|]. intros c Hc. by rewrite <- body_class.
  - intros (a & mid & b & -> & Ha & Hmid & Hb).
    exists [a], (mid ++ [b]). split_and!; [done|..].
    + exists a. by rewrite head_class.
    + exists mid, [b]. split_and!; [done|..].
      * apply star_class_lang. eapply Forall_impl; [exact Hmid|].
        intros c Hc. by rewrite body_class.
      * exists b. by rewrite head_class.
Qed.

Lemma valid_tag_shape s :
  valid_tag s
  <-> exists a mid b,
        list_ascii_of_string s = a :: mid ++ [b]
        /\ lower_or_digit a = true
        /\ Forall (fun c => lower_digit_or_hyphen c = true) mid
        /\ lower_or_digit b = true.
Proof.
  unfold valid_tag. generalize (list_ascii_of_string s) as l. intros l. split.
  - intros (Hlen & (a & Hhd & Ha) & (b & Hlast & Hb) & Hmid).
    destruct l as [|a' rest]; [done|]. injection Hhd as ->.
    destruct rest as [|x mid _] using rev_ind; [simpl in Hlen; lia|].
    rewrite app_comm_cons, last_snoc in Hlast. injection Hlast as ->.
    exists a, mid, b. split_and!; try done.
    apply Forall_lookup_2. intros i c Hi.
    apply (Hmid (S i) c); [lia| |].
    + apply lookup_lt_Some in Hi. simpl. rewrite length_app. simpl. lia.
    + simpl. by apply lookup_app_l_Some.
  - intros (a & mid & b & -> & Ha & Hmid & Hb). split_and!.
    + simpl. rewrite length_app. simpl. lia.
    + by exists a.
    + exists b. by rewrite app_comm_cons, last_snoc.
    + intros i c Hpos Hi Hc. destruct i as [|i]; [lia|].
      simpl in Hc, Hi. rewrite length_app in Hi. simpl in Hi.
      rewrite lookup_app_l in Hc by lia.
      by apply (Forall_lookup_1 _ _ _ _ Hmid Hc).
Qed.

(** C8: the validator accepts a string exactly when it has at least two
    characters, starts and ends with a lowercase letter or a digit and has
    only lowercase letters, digits and hyphens in between; the seven
    examples of the specification are decided as it says. *)
Theorem tagRegex_valid_tag :
  (forall s, MatchString s = true <-> valid_tag s)
  /\ MatchString "abc-123" = true
  /\ MatchString "ab" = true
  /\ MatchString "a" = false
  /\ MatchString "-abc" = false
  /\ MatchString "ABC" = false
  /\ MatchString "" = false
  /\ MatchString "a_b" = false.
Proof.
  split; [|by vm_compute].
  intros s. unfold MatchString.
  by rewrite accepts_lang, tagRegex_lang, valid_tag_shape.
Qed.

End tag.

(** ** package store: the event configuration store *)
Module store.

Section EventConfigStore.

(** [W] is the outside world the hooks act on (the event file on disk),
    [Error] the Go errors they return, [InstanceConfig] the frontend
    description, which is declared outside the files at hand.
    [time.Time] is a number of nanoseconds. *)
Context {W Error InstanceConfig : Type}.

Record Lab := {
  Frontends : list InstanceConfig;
  Exercises : list string
}.

Record EventConfig := {
  Name : string;
  Tag : string;
  Available : Z;
  Capacity : Z;
  Lab_ : Lab;
  StartedAt : option Z;
  FinishExpected : option Z;
  FinishedAt : option Z
}.

(** [es.conf.Capacity = n] *)
Definition set_Capacity (n : Z) (c : EventConfig) : EventConfig :=
  {| Name := Name c; Tag := Tag c; Available := Available c; Capacity := n;
     Lab_ := Lab_ c; StartedAt := StartedAt c;
     FinishExpected := FinishExpected c; FinishedAt := FinishedAt c |}.

(** [es.conf.FinishedAt = &t] *)
Definition set_FinishedAt (t : Z) (c : EventConfig) : EventConfig :=
  {| Name := Name c; Tag := Tag c; Available := Available c;
     Capacity := Capacity c; Lab_ := Lab_ c; StartedAt := StartedAt c;
     FinishExpected := FinishExpected c; FinishedAt := Some t |}.

(** A hook, [func(EventConfig) error]. *)
Definition Hook : Type := EventConfig -> W -> option Error * W.

(** [eventconfigstore]; the mutex only matters to concurrent callers. *)
Record eventconfigstore := {
  conf : EventConfig;
  hooks : list Hook
}.

Definition NewEventConfigStore (c : EventConfig) (hs : list Hook) : eventconfigstore :=
  {| conf := c; hooks := hs |}.

Definition Read (es : eventconfigstore) : EventConfig := conf es.

(** One invocation of a hook: its position in [hooks], the configuration
    it was given and the error it returned. *)
Record HookCall := {
  position : nat;
  given : EventConfig;
  returned : option Error
}.

(** The loop of [runHooks], from position [i] on. *)
Fixpoint run_from (i : nat) (hs : list Hook) (c : EventConfig) (w : W)
    : option Error * W * list HookCall :=
  match hs with
  | [] => (None, w, [])
  | h :: rest =>
      let '(r, w1) := h c w in
      let call := {| position := i; given := c; returned := r |} in
      match r with
      | Some err => (Some err, w1, [call])
      | None =>
          let '(r2, w2, calls) := run_from (S i) rest c w1 in
          (r2, w2, call :: calls)
      end
  end.

Definition runHooks (es : eventconfigstore) (w : W)
    : option Error * W * list HookCall :=
  run_from 0 (hooks es) (conf es) w.

Definition SetCapacity (n : Z) (es : eventconfigstore) (w : W)
    : option Error * eventconfigstore * W * list HookCall :=
  let es1 := {| conf := set_Capacity n (conf es); hooks := hooks es |} in
  let '(r, w1, calls) := runHooks es1 w in
  (r, es1, w1, calls).

Definition Finish (t : Z) (es : eventconfigstore) (w : W)
    : option Error * eventconfigstore * W * list HookCall :=
  let es1 := {| conf := set_FinishedAt t (conf es); hooks := hooks es |} in
  let '(r, w1, calls) := runHooks es1 w in
  (r, es1, w1, calls).

(** The calls in which the first [k] hooks are given [c] and return nil. *)
Definition quiet_calls (i k : nat) (c : EventConfig) : list HookCall :=
  map (fun j => {| position := j; given := c; returned := None |}) (seq i k).

(** Every hook of a list in turn, called with the configuration [c] in
    the world the previous hook left, returned nil; together they took the
    world from [w] to [w1]. *)
Inductive all_pass (c : EventConfig) : list Hook -> W -> W -> Prop :=
| all_pass_end w :
    all_pass c [] w w
| all_pass_next (h : Hook) rest w w1 w2 :
    h c w = (None, w1) ->
    all_pass c rest w1 w2 ->
    all_pass c (h :: rest) w w2.

(** What a mutation followed by [runHooks] does, started in the world [w]:
    the store holds the new configuration [c] and the same hooks.  The
    hooks were called with [c] in registration order, each in the world
    the previous one left: either all of them, each returning nil; or the
    hooks before some hook [h] returned nil and [h] returned an error,
    which is the result, and the world is what [h] left, so no hook after
    [h] was called. *)
Definition notified (es : eventconfigstore) (w : W) (c : EventConfig)
    (run : option Error * eventconfigstore * W * list HookCall) : Prop :=
  let '(r, es1, w1, calls) := run in
  conf es1 = c
  /\ hooks es1 = hooks es
  /\ ((r = None
       /\ all_pass c (hooks es) w w1
       /\ calls = quiet_calls 0 (length (hooks es)) c)
      \/ (exists pre (h : Hook) post err wk,
            hooks es = pre ++ h :: post
            /\ all_pass c pre w wk
            /\ h c wk = (Some err, w1)
            /\ r = Some err
            /\ calls = quiet_calls 0 (length pre) c
                       ++ [{| position := length pre; given := c;
                              returned := Some err |}])).

Lemma run_from_world hs : forall i c w,
  let '(r, w1, calls) := run_from i hs c w in
  (r = None /\ all_pass c hs w w1 /\ calls = quiet_calls i (length hs) c)
  \/ (exists pre (h : Hook) post err wk,
        hs = pre ++ h :: post
        /\ all_pass c pre w wk
        /\ h c wk = (Some err, w1)
        /\ r = Some err
        /\ calls = quiet_calls i (length pre) c
                   ++ [{| position := i + length pre; given := c;
                          returned := Some err |}]).
Proof.
  induction hs as [|h rest IH]; intros i c w; simpl.
  - left. split_and!; [done| |done]. constructor.
  - destruct (h c w) as [[err|] w1] eqn:Hh.
    + right. exists [], h, rest, err, w. simpl. rewrite Nat.add_0_r.
      split_and!; [done| |done..]. constructor.
    + specialize (IH (S i) c w1).
      destruct (run_from (S i) rest c w1) as [[r2 w2] calls].
      destruct IH as [(-> & Hall & ->)|(pre & h' & post & err & wk & -> & Hall
                                        & Hh' & -> & ->)].
      * left. split_and!; [done| |done]. by apply all_pass_next with w1.
      * right. exists (h :: pre), h', post, err, wk.
        split_and!; [done| |done|done|].
        -- by apply all_pass_next with w1.
        -- simpl. by rewrite Nat.add_succ_r.
Qed.

(** C9: [SetCapacity] and [Finish] first store the new value and then call
    the hooks with the new configuration, in registration order and each
    in the world the previous one left; the first hook that returns an
    error is the last one called and its error is the result; the store
    keeps the new value in either case. *)
Theorem hooks_run_after_mutation (es : eventconfigstore) (w : W) (n t : Z) :
  notified es w (set_Capacity n (conf es)) (SetCapacity n es w)
  /\ notified es w (set_FinishedAt t (conf es)) (Finish t es w).
Proof.
  split.
  - unfold SetCapacity, runHooks; simpl.
    pose proof (run_from_world (hooks es) 0 (set_Capacity n (conf es)) w) as Hr.
    destruct (run_from 0 (hooks es) _ w) as [[r w1] calls]. simpl. done.
  - unfold Finish, runHooks; simpl.
    pose proof (run_from_world (hooks es) 0 (set_FinishedAt t (conf es)) w) as Hr.
    destruct (run_from 0 (hooks es) _ w) as [[r w1] calls]. simpl. done.
Qed.

End EventConfigStore.

End store.

(** ** package store: validation, file names and the event file *)
Module eventfile.

(** What the event file needs of the operating system: [ioutil.WriteFile],
    [os.Remove], [os.MkdirAll], whether [os.Stat] reports that a path does
    not exist ([os.IsNotExist]), [filepath.Join] of two elements,
    [time.Now] and the date format ["02-01-06"]. *)
Class Files (OS Error Bytes : Type) := {
  WriteFile : string -> Bytes -> OS -> option Error * OS;
  Remove : string -> OS -> option Error * OS;
  MkdirAll : string -> OS -> option Error * OS;
  NotExist : string -> OS -> bool;
  Join : string -> string -> string;
  Now : OS -> Z * OS;
  Format : Z -> string
}.

(** [yaml.Marshal] on the contents of an event file. *)
Class Yaml (Error Bytes File : Type) := {
  Marshal : File -> Res Error Bytes
}.

(** The methods of [*haaukins.Team] that [saveTeams] calls. *)
Class TeamView (HTeam : Type) := {
  ID : HTeam -> string;
  Email : HTeam -> string;
  TeamName : HTeam -> string;
  GetHashedPassword : HTeam -> string
}.

(** [EmptyVarErr], declared outside the files at hand ([Type] is spelled
    [Type_]). *)
Record EmptyVarErr := {
  Var : string;
  Type_ : string
}.

Record Challenge := {
  OwnerID : string;
  FlagTag : string;
  FlagValue : string;
  CompletedAt : option Z
}.

(** [Team]; the two maps are association lists, empty for nil. *)
Record Team := {
  Id : string;
  TEmail : string;
  Name : string;
  HashedPassword : string;
  SolvedChallenges : list Challenge;
  Metadata : list (string * string);
  CreatedAt : option Z;
  ChalMap : list (string * Challenge);
  AccessedAt : option Z
}.

(** [strings.Split(s, sep)] for a separator of one byte. *)
Fixpoint Split (s : string) (sep : ascii) : list string :=
  match s with
  | EmptyString => [EmptyString]
  | String c rest =>
      if Ascii.eqb c sep then EmptyString :: Split rest sep
      else match Split rest sep with
           | part :: parts => String c part :: parts
           | [] => [String c EmptyString]
           end
  end.

(** [strings.Join(parts, ".")] *)
Definition JoinDot (parts : list string) : string := String.concat "." parts.

(** Does the byte occur in the string? *)
Fixpoint has_byte (c : ascii) (s : string) : bool :=
  match s with
  | EmptyString => false
  | String c1 rest => Ascii.eqb c1 c || has_byte c rest
  end.

(** [relativeDir] in [ArchiveDir]: the file name without its last
    extension.  [parts[:len(parts)-1]] is in range because [Split] never
    returns an empty slice. *)
Definition relativeDir (filename : string) : string :=
  let parts := Split filename "." in
  JoinDot (take (length parts - 1) parts).

(** [%d] of a loop counter. *)
Definition decimal (i : nat) : string := NilZero.string_of_uint (Nat.to_uint i).

Section EventFile.

Context {OS Error Bytes InstanceConfig HTeam : Type}.
Context {files : Files OS Error Bytes}.
Context {teams : TeamView HTeam}.

(** [EventConfig.Validate] *)
Definition Validate (e : store.EventConfig (InstanceConfig := InstanceConfig))
    : option EmptyVarErr :=
  if String.eqb (store.Name e) "" then Some {| Var := "Name"; Type_ := "Event" |}
  else if String.eqb (store.Tag e) "" then Some {| Var := "Tag"; Type_ := "Event" |}
  else if Nat.eqb (length (store.Exercises (store.Lab_ e))) 0
  then Some {| Var := "Exercises"; Type_ := "Event" |}
  else if Nat.eqb (length (store.Frontends (store.Lab_ e))) 0
  then Some {| Var := "Frontends"; Type_ := "Event" |}
  else None.

(** Neither the file nor the directory of this name exists. *)
Definition free (path dirname : string) (os : OS) : bool :=
  NotExist (Join path (dirname +:+ ".yml")) os && NotExist (Join path dirname) os.

(** The numbered candidates of [getFileNameForEvent], tried in order. *)
Fixpoint first_free (path base : string) (os : OS) (candidates : list nat)
    : option string :=
  match candidates with
  | [] => None
  | i :: rest =>
      let dirname := base +:+ "-" +:+ decimal i in
      if free path dirname os then Some (dirname +:+ ".yml")
      else first_free path base os rest
  end.

(** [getFileNameForEvent]; the loop runs for [i] from 1 to 998. *)
Definition getFileNameForEvent (path tag : string) (os : OS)
    : Res string string * OS :=
  let '(t, os1) := Now os in
  let now := Format t in
  let dirname := tag +:+ "-" +:+ now in
  if free path dirname os1 then (ROk (dirname +:+ ".yml"), os1)
  else match first_free path dirname os1 (seq 1 998) with
       | Some filename => (ROk filename, os1)
       | None => (RErr "unable to get filename for event", os1)
       end.

(** *** Validation *)

(** X10: [Validate] returns nil exactly when the name and the tag are not
    empty and the lab has at least one exercise and one frontend;
    otherwise it reports, as an [EmptyVarErr] of type ["Event"], the first
    of [Name], [Tag], [Exercises], [Frontends] that is empty. *)
Theorem Validate_reports_first_empty
    (e : store.EventConfig (InstanceConfig := InstanceConfig)) :
  (Validate e = None
   <-> store.Name e <> EmptyString /\ store.Tag e <> EmptyString
       /\ store.Exercises (store.Lab_ e) <> []
       /\ store.Frontends (store.Lab_ e) <> [])
  /\ (forall err, Validate e = Some err ->
        Type_ err = "Event"
        /\ (Var err = "Name" /\ store.Name e = EmptyString
            \/ Var err = "Tag" /\ store.Name e <> EmptyString
               /\ store.Tag e = EmptyString
            \/ Var err = "Exercises" /\ store.Name e <> EmptyString
               /\ store.Tag e <> EmptyString
               /\ store.Exercises (store.Lab_ e) = []
            \/ Var err = "Frontends" /\ store.Name e <> EmptyString
               /\ store.Tag e <> EmptyString
               /\ store.Exercises (store.Lab_ e) <> []
               /\ store.Frontends (store.Lab_ e) = [])).
Proof.
  unfold Validate.
  destruct (String.eqb_spec (store.Name e) "") as [Hn|Hn].
  { split; [split; [done|by intros (? & _)]|]. intros err [= <-]. simpl.
    split; [done|]. by left. }
  destruct (String.eqb_spec (store.Tag e) "") as [Ht|Ht].
  { split; [split; [done|by intros (_ & ? & _)]|]. intros err [= <-]. simpl.
    split; [done|]. right; left. by split_and!. }
  destruct (store.Exercises (store.Lab_ e)) as [|x xs] eqn:Hx; simpl.
  { split; [split; [done|by intros (_ & _ & ? & _)]|]. intros err [= <-].
    simpl. split; [done|]. right; right; left. by split_and!. }
  destruct (store.Frontends (store.Lab_ e)) as [|f fs] eqn:Hf; simpl.
  { split; [split; [done|by intros (_ & _ & _ & ?)]|]. intros err [= <-].
    simpl. split; [done|]. do 3 right. by split_and!. }
  split; [|done]. split; [|done]. intros _. by split_and!.
Qed.

(** *** File names *)

Lemma Split_length s sep : 1 <= length (Split s sep).
Proof.
  induction s as [|c s IH]; simpl; [lia|].
  destruct (Ascii.eqb c sep); simpl; [lia|].
  destruct (Split s sep); simpl in *; lia.
Qed.

Lemma Split_no_sep s sep : has_byte sep s = false -> Split s sep = [s].
Proof.
  induction s as [|c s IH]; simpl; [done|].
  intros [Hc Hs]%orb_false_iff. rewrite Hc, (IH Hs). done.
Qed.

Lemma Split_append a b sep :
  Split (a +:+ String sep b) sep = Split a sep ++ Split b sep.
Proof.
  induction a as [|c a IH]; simpl.
  - by rewrite Ascii.eqb_refl.
  - destruct (Ascii.eqb c sep); [by rewrite IH|].
    rewrite IH. pose proof (Split_length a sep).
    destruct (Split a sep); simpl in *; [lia|done].
Qed.

Lemma JoinDot_Split s : JoinDot (Split s ".") = s.
Proof.
  unfold JoinDot. induction s as [|c s IH]; simpl; [done|].
  destruct (Ascii.eqb_spec c ".") as [->|Hc].
  - pose proof (Split_length s ".").
    destruct (Split s ".") as [|p ps] eqn:Hs; simpl in *; [lia|].
    by rewrite IH.
  - pose proof (Split_length s ".").
    destruct (Split s ".") as [|p ps] eqn:Hs; simpl in *; [lia|].
    destruct ps; simpl in *; by rewrite <- IH.
Qed.

Lemma relativeDir_extension base ext :
  has_byte "." ext = false -> relativeDir (base +:+ "." +:+ ext) = base.
Proof.
  intros Hext. unfold relativeDir.
  change ("." +:+ ext) with (String "." ext).
  rewrite Split_append, (Split_no_sep ext) by done.
  rewrite length_app. simpl.
  replace (length (Split base ".") + 1 - 1) with (length (Split base ".")) by lia.
  rewrite take_app_length. apply JoinDot_Split.
Qed.

(** X11: [relativeDir] removes exactly the last extension: for a name
    [base.ext] whose [ext] has no dot it yields [base], whatever dots
    [base] has, and for a name without any dot it yields the empty
    string. *)
Theorem relativeDir_strips_last_extension :
  (forall base ext, has_byte "." ext = false ->
     relativeDir (base +:+ "." +:+ ext) = base)
  /\ (forall name, has_byte "." name = false -> relativeDir name = EmptyString).
Proof.
  split.
  - apply relativeDir_extension.
  - intros name Hname. unfold relativeDir. by rewrite Split_no_sep.
Qed.

Lemma first_free_seq path base os n : forall a,
  match first_free path base os (seq a n) with
  | Some filename =>
      exists i, a <= i < a + n
        /\ free path (base +:+ "-" +:+ decimal i) os = true
        /\ (forall j, a <= j < i -> free path (base +:+ "-" +:+ decimal j) os = false)
        /\ filename = (base +:+ "-" +:+ decimal i) +:+ ".yml"
  | None =>
      forall j, a <= j < a + n -> free path (base +:+ "-" +:+ decimal j) os = false
  end.
Proof.
  induction n as [|n IH]; intros a; simpl; [intros j; lia|].
  destruct (free path (base +:+ "-" +:+ decimal a) os) eqn:Ha.
  - exists a. split_and!; [lia..|done| |done]. intros j; lia.
  - specialize (IH (S a)).
    destruct (first_free path base os (seq (S a) n)) as [filename|].
    + destruct IH as (i & Hi & Hfree & Hmin & ->). exists i.
      split_and!; [lia..|done| |done].
      intros j Hj. destruct (decide (j = a)) as [->|]; [done|]. apply Hmin. lia.
    + intros j Hj. destruct (decide (j = a)) as [->|]; [done|]. apply IH. lia.
Qed.

(** X12: [getFileNameForEvent] is first fit.  Call a name free when
    [os.Stat] fails with an error for which [os.IsNotExist] holds both on
    the file [name.yml] and on the directory [name].  With [base] the tag
    and the date of the call, it returns [base.yml] when [base] is free;
    otherwise [base-i.yml] for the least [i] from 1 to 998 such that
    [base-i] is free; and it fails exactly when neither [base] nor any of
    these 998 names is free (the number 999 is never tried).  A name whose
    [os.Stat] fails for another reason counts as not free. *)
Theorem getFileNameForEvent_first_fit path tag os r os1 :
  getFileNameForEvent path tag os = (r, os1) ->
  let base := tag +:+ "-" +:+ Format (Now os).1 in
  os1 = (Now os).2
  /\ ((free path base os1 = true /\ r = ROk (base +:+ ".yml"))
      \/ (free path base os1 = false
          /\ exists i, 1 <= i <= 998
               /\ free path (base +:+ "-" +:+ decimal i) os1 = true
               /\ (forall j, 1 <= j < i ->
                     free path (base +:+ "-" +:+ decimal j) os1 = false)
               /\ r = ROk ((base +:+ "-" +:+ decimal i) +:+ ".yml"))
      \/ (free path base os1 = false
          /\ (forall j, 1 <= j <= 998 ->
                free path (base +:+ "-" +:+ decimal j) os1 = false)
          /\ r = RErr "unable to get filename for event")).
Proof.
  unfold getFileNameForEvent. destruct (Now os) as [t os'] eqn:Hnow.
  cbn [fst snd]. cbv zeta.
  destruct (free path (tag +:+ "-" +:+ Format t) os') eqn:Hbase.
  - intros [= <- <-]. split; [done|]. by left.
  - pose proof (first_free_seq path (tag +:+ "-" +:+ Format t) os' 998 1) as Hff.
    destruct (first_free path _ os' (seq 1 998)) as [filename|];
      intros [= <- <-]; (split; [done|]); right.
    + left. split; [done|]. destruct Hff as (i & Hi & Hfree & Hmin & ->).
      exists i. split_and!; [lia..|done|done|done].
    + right. split; [done|]. split; [|done]. intros j Hj. apply Hff. lia.
Qed.

Lemma getFileNameForEvent_sound path tag os filename os1 :
  getFileNameForEvent path tag os = (ROk filename, os1) ->
  exists dirname, free path dirname os1 = true /\ filename = dirname +:+ ".yml".
Proof.
  unfold getFileNameForEvent. destruct (Now os) as [t os'].
  destruct (free path (tag +:+ "-" +:+ Format t) os') eqn:Hbase.
  - intros [= <- <-]. by eexists.
  - pose proof (first_free_seq path (tag +:+ "-" +:+ Format t) os' 998 1) as Hff.
    destruct (first_free path _ os' (seq 1 998)) as [name|]; intros [= <- <-].
    destruct Hff as (i & _ & Hfree & _ & ->). by eexists.
Qed.

(** X13: a name returned by [getFileNameForEvent] ends in [.yml], and
    neither the file of that name nor the directory that [ArchiveDir]
    derives from it (the name without [.yml], joined to the same path)
    existed when the name was chosen. *)
Theorem getFileNameForEvent_archive_dir_free path tag os filename os1 :
  getFileNameForEvent path tag os = (ROk filename, os1) ->
  filename = relativeDir filename +:+ ".yml"
  /\ NotExist (Join path filename) os1 = true
  /\ NotExist (Join path (relativeDir filename)) os1 = true.
Proof.
  assert (Hrel : forall d, relativeDir (d +:+ ".yml") = d).
  { intros d. by apply (relativeDir_extension d "yml"). }
  assert (Hfree : forall d, free path d os1 = true ->
            d +:+ ".yml" = relativeDir (d +:+ ".yml") +:+ ".yml"
            /\ NotExist (Join path (d +:+ ".yml")) os1 = true
            /\ NotExist (Join path (relativeDir (d +:+ ".yml"))) os1 = true).
  { intros d [? ?]%andb_true_iff. by rewrite Hrel. }
  intros Hrun.
  apply getFileNameForEvent_sound in Hrun as (d & Hd & ->). by apply Hfree.
Qed.

(** *** The event file *)

Record RawEventFile := {
  EventConfig_ : store.EventConfig (InstanceConfig := InstanceConfig);
  Teams : list Team
}.

Context {yaml : Yaml Error Bytes RawEventFile}.

(** [eventfile]: the contents, the directory and the file name.  The
    embedded [EventConfigStore] is a value of its own, below. *)
Record eventfile := {
  file : RawEventFile;
  dir : string;
  filename : string
}.

Definition set_EventConfig
    (c : store.EventConfig (InstanceConfig := InstanceConfig)) (ef : eventfile)
    : eventfile :=
  {| file := {| EventConfig_ := c; Teams := Teams (file ef) |};
     dir := dir ef; filename := filename ef |}.

Definition set_Teams (ts : list Team) (ef : eventfile) : eventfile :=
  {| file := {| EventConfig_ := EventConfig_ (file ef); Teams := ts |};
     dir := dir ef; filename := filename ef |}.

Definition path (ef : eventfile) : string := Join (dir ef) (filename ef).

Definition save (ef : eventfile) (os : OS) : option Error * OS :=
  match Marshal (file ef) with
  | RErr err => (Some err, os)
  | ROk bytes => WriteFile (path ef) bytes os
  end.

Definition delete (ef : eventfile) (os : OS) : option Error * OS :=
  Remove (path ef) os.

(** The loop of [saveTeams]. *)
Fixpoint store_teams (ts : list HTeam) (storeTeam : list Team) (os : OS)
    : list Team * OS :=
  match ts with
  | [] => (storeTeam, os)
  | t :: rest =>
      let '(now, os1) := Now os in
      let team := {| Id := ID t; TEmail := Email t; Name := TeamName t;
                     HashedPassword := GetHashedPassword t;
                     SolvedChallenges := []; Metadata := []; CreatedAt := None;
                     ChalMap := []; AccessedAt := Some now |} in
      store_teams rest (storeTeam ++ [team]) os1
  end.

Definition saveTeams (ts : list HTeam) (ef : eventfile) (os : OS)
    : option Error * eventfile * OS :=
  let '(storeTeam, os1) := store_teams ts [] os in
  let ef1 := set_Teams storeTeam ef in
  let '(r, os2) := save ef1 os1 in
  (r, ef1, os2).

Definition saveEventConfig
    (c : store.EventConfig (InstanceConfig := InstanceConfig))
    (ef : eventfile) (os : OS) : option Error * eventfile * OS :=
  let ef1 := set_EventConfig c ef in
  let '(r, os1) := save ef1 os in
  (r, ef1, os1).

Definition ArchiveDir (ef : eventfile) : string :=
  Join (dir ef) (relativeDir (filename ef)).

(** [Archive]; the warning it logs when the delete fails is not kept. *)
Definition Archive (ef : eventfile) (os : OS) : option Error * OS :=
  if NotExist (ArchiveDir ef) os then
    match MkdirAll (ArchiveDir ef) os with
    | (Some err, os1) => (Some err, os1)
    | (None, os1) => (None, (delete ef os1).2)
    end
  else (None, (delete ef os).2).

(** [ef.saveEventConfig] as the hook that [NewEventFile] registers; the
    world of the hook is the event file and the operating system. *)
Definition saveEventConfig_hook
    : store.Hook (W := eventfile * OS) (Error := Error)
        (InstanceConfig := InstanceConfig) :=
  fun c w =>
    let '(r, ef1, os1) := saveEventConfig c w.1 w.2 in (r, (ef1, os1)).

(** The config store of an event file. *)
Definition configstore : Type :=
  store.eventconfigstore (W := eventfile * OS) (Error := Error)
    (InstanceConfig := InstanceConfig).

(** [NewEventFile], without the team store (its constructor is outside the
    files at hand): the event file and its [EventConfigStore]. *)
Definition NewEventFile (d name : string) (f : RawEventFile)
    : eventfile * configstore :=
  ({| file := f; dir := d; filename := name |},
   store.NewEventConfigStore (EventConfig_ f) [saveEventConfig_hook]).

(** A call of one of the two mutating methods of the config store. *)
Inductive ConfigCall :=
| CallSetCapacity (n : Z)
| CallFinish (t : Z).

Definition call (c : ConfigCall) (es : configstore) (w : eventfile * OS)
    : option Error * configstore * (eventfile * OS) :=
  match c with
  | CallSetCapacity n => (store.SetCapacity n es w).1
  | CallFinish t => (store.Finish t es w).1
  end.

(** Calls made one after the other, whatever each of them returns. *)
Fixpoint call_all (cs : list ConfigCall) (es : configstore)
    (w : eventfile * OS) : configstore * (eventfile * OS) :=
  match cs with
  | [] => (es, w)
  | c :: rest => let '(_, es1, w1) := call c es w in call_all rest es1 w1
  end.

(** What [saveTeams] keeps of a team, stamped with the time of the call
    to [time.Now] made for it. *)
Definition stored_team (t : HTeam) (now : Z) : Team :=
  {| Id := ID t; TEmail := Email t; Name := TeamName t;
     HashedPassword := GetHashedPassword t;
     SolvedChallenges := []; Metadata := []; CreatedAt := None;
     ChalMap := []; AccessedAt := Some now |}.

(** [n] readings of the clock, one after the other: the times read and
    the world after the last reading. *)
Fixpoint readings (n : nat) (os : OS) : list Z * OS :=
  match n with
  | 0 => ([], os)
  | S n' =>
      let '(t, os1) := Now os in
      let '(ts, os2) := readings n' os1 in
      (t :: ts, os2)
  end.

Lemma store_teams_spec ts : forall storeTeam os,
  store_teams ts storeTeam os
  = (storeTeam ++ zip_with stored_team ts (readings (length ts) os).1,
     (readings (length ts) os).2).
Proof.
  induction ts as [|t rest IH]; intros storeTeam os; simpl.
  - by rewrite app_nil_r.
  - destruct (Now os) as [now os1]. rewrite IH.
    destruct (readings (length rest) os1) as [stamps os2]. simpl.
    by rewrite <- app_assoc.
Qed.

(** X14: [saveTeams] reads the clock once per given team, in order, then
    replaces the teams of the event file, whether or not the file can then
    be written, by one entry per given team, in the same order, with its
    id, e-mail, name and hashed password and, as access time, the time read
    for it; solved challenges, metadata and creation time are never stored,
    and the teams stored before are gone.  The event configuration, the
    directory and the file name are untouched, and what is returned is
    what [save] of the new contents returns after the last reading. *)
Theorem saveTeams_stores ts ef os r ef1 os1 :
  saveTeams ts ef os = (r, ef1, os1) ->
  Teams (file ef1) = zip_with stored_team ts (readings (length ts) os).1
  /\ map AccessedAt (Teams (file ef1)) = map Some (readings (length ts) os).1
  /\ length (readings (length ts) os).1 = length ts
  /\ map Id (Teams (file ef1)) = map ID ts
  /\ Forall (fun t => SolvedChallenges t = [] /\ Metadata t = []
                      /\ CreatedAt t = None)
       (Teams (file ef1))
  /\ EventConfig_ (file ef1) = EventConfig_ (file ef)
  /\ dir ef1 = dir ef /\ filename ef1 = filename ef
  /\ (r, os1) = save ef1 (readings (length ts) os).2.
Proof.
  unfold saveTeams. rewrite store_teams_spec. simpl.
  assert (Hlen : forall n os0, length (readings n os0).1 = n).
  { induction n as [|n IH]; intros os0; simpl; [done|].
    destruct (Now os0) as [t os']. specialize (IH os').
    destruct (readings n os') as [stamps os'']. simpl in *. by rewrite IH. }
  specialize (Hlen (length ts) os).
  destruct (readings (length ts) os) as [stamps os'] eqn:Hr. simpl in *.
  destruct (save (set_Teams (zip_with stored_team ts stamps) ef) os')
    as [r' os''] eqn:Hs.
  intros [= <- <- <-]. simpl. rewrite Hs.
  split_and!; try done.
  - clear Hr Hs. revert stamps Hlen.
    induction ts as [|t rest IH]; intros [|now stamps] Hlen; simpl in *;
      try done.
    f_equal. apply IH. lia.
  - clear Hr Hs. revert stamps Hlen.
    induction ts as [|t rest IH]; intros [|now stamps] Hlen; simpl in *;
      try done.
    f_equal. apply IH. lia.
  - clear Hr Hs Hlen. revert stamps.
    induction ts as [|t rest IH]; intros [|now stamps]; simpl;
      try constructor; [done|]. apply IH.
Qed.

(** X15: the event file and its config store never disagree.  After
    [NewEventFile] and any sequence of [SetCapacity] and [Finish] calls,
    whatever each call returned, the configuration that [Read] returns is
    the one held in the event file; the teams, the directory and the file
    name of the event file are those given to [NewEventFile], and
    [saveEventConfig] is still the only hook. *)
Theorem event_file_follows_config_store d name f cs os :
  let '(es, (ef, _)) :=
    call_all cs (NewEventFile d name f).2 ((NewEventFile d name f).1, os) in
  store.Read es = EventConfig_ (file ef)
  /\ Teams (file ef) = Teams f
  /\ dir ef = d /\ filename ef = name
  /\ store.hooks es = [saveEventConfig_hook].
Proof.
  assert (Hinv : forall cs (es : configstore) (w : eventfile * OS),
            store.conf es = EventConfig_ (file w.1) ->
            store.hooks es = [saveEventConfig_hook] ->
            let '(es1, w1) := call_all cs es w in
            store.conf es1 = EventConfig_ (file w1.1)
            /\ Teams (file w1.1) = Teams (file w.1)
            /\ dir w1.1 = dir w.1 /\ filename w1.1 = filename w.1
            /\ store.hooks es1 = [saveEventConfig_hook]).
  { clear. induction cs as [|c rest IH]; intros es [ef os] Hc Hh; simpl;
      [done|].
    assert (Hstep : forall c',
              store.run_from 0 [saveEventConfig_hook] c' (ef, os)
              = ((save (set_EventConfig c' ef) os).1,
                 (set_EventConfig c' ef, (save (set_EventConfig c' ef) os).2),
                 [{| store.position := 0; store.given := c';
                     store.returned := (save (set_EventConfig c' ef) os).1 |}])).
    { intros c'. simpl. unfold saveEventConfig_hook, saveEventConfig. simpl.
      by destruct (save (set_EventConfig c' ef) os) as [[err|] os1]. }
    destruct c as [n|t]; simpl.
    - unfold store.SetCapacity, store.runHooks. simpl. rewrite Hh, Hstep. simpl.
      specialize (IH {| store.conf := store.set_Capacity n (store.conf es);
                        store.hooks := [saveEventConfig_hook] |}
                     (set_EventConfig (store.set_Capacity n (store.conf es)) ef,
                      (save (set_EventConfig (store.set_Capacity n (store.conf es)) ef)
                         os).2)
                     eq_refl eq_refl).
      by destruct (call_all rest _ _) as [es1 [ef1 os1]].
    - unfold store.Finish, store.runHooks. simpl. rewrite Hh, Hstep. simpl.
      specialize (IH {| store.conf := store.set_FinishedAt t (store.conf es);
                        store.hooks := [saveEventConfig_hook] |}
                     (set_EventConfig (store.set_FinishedAt t (store.conf es)) ef,
                      (save (set_EventConfig (store.set_FinishedAt t (store.conf es)) ef)
                         os).2)
                     eq_refl eq_refl).
      by destruct (call_all rest _ _) as [es1 [ef1 os1]]. }
  specialize (Hinv cs (NewEventFile d name f).2 ((NewEventFile d name f).1, os)
                eq_refl eq_refl).
  by destruct (call_all cs _ _) as [es [ef os1]].
Qed.

(** X16: on the config store of an event file, [SetCapacity] and [Finish]
    put the new configuration into the event file and try to write the
    file once, with the new configuration and the current teams; what the
    call returns is what that [save] returned, and the new configuration
    stays in the store and in the event file when the write fails. *)
Theorem config_call_saves_event_file c (es : configstore) ef os r es1 ef1 os1 :
  store.hooks es = [saveEventConfig_hook] ->
  call c es (ef, os) = (r, es1, (ef1, os1)) ->
  let updated :=
    match c with
    | CallSetCapacity n => store.set_Capacity n (store.conf es)
    | CallFinish t => store.set_FinishedAt t (store.conf es)
    end in
  store.Read es1 = updated
  /\ ef1 = set_EventConfig updated ef
  /\ (r, os1) = save (set_EventConfig updated ef) os.
Proof.
  intros Hh.
  destruct c as [n|t]; simpl;
    unfold store.SetCapacity, store.Finish, store.runHooks; simpl; rewrite Hh;
    simpl; unfold saveEventConfig_hook, saveEventConfig; simpl.
  - destruct (save (set_EventConfig (store.set_Capacity n (store.conf es)) ef) os)
      as [[err|] os'] eqn:Hs; simpl; by intros [= <- <- <- <-].
  - destruct (save (set_EventConfig (store.set_FinishedAt t (store.conf es)) ef) os)
      as [[err|] os'] eqn:Hs; simpl; by intros [= <- <- <- <-].
Qed.

(** X17: [Archive] returns an error only when the archive directory does
    not exist and cannot be created, and then it does not try to delete
    the event file.  In every other case it returns nil, also when the
    delete fails, and the file it tries to delete is the one at
    [filepath.Join(dir, filename)]; it never writes the event file. *)
Theorem Archive_reports_only_mkdir ef os r os1 :
  Archive ef os = (r, os1) ->
  (exists err,
     r = Some err
     /\ NotExist (Join (dir ef) (relativeDir (filename ef))) os = true
     /\ MkdirAll (Join (dir ef) (relativeDir (filename ef))) os = (Some err, os1))
  \/ (r = None
      /\ exists os0,
           os1 = (Remove (Join (dir ef) (filename ef)) os0).2
           /\ (NotExist (Join (dir ef) (relativeDir (filename ef))) os = false
               /\ os0 = os
               \/ NotExist (Join (dir ef) (relativeDir (filename ef))) os = true
                  /\ MkdirAll (Join (dir ef) (relativeDir (filename ef))) os
                     = (None, os0))).
Proof.
  unfold Archive, ArchiveDir, delete, path.
  destruct (NotExist _ os) eqn:Hne.
  - destruct (MkdirAll _ os) as [[err|] os'] eqn:Hmk; intros [= <- <-].
    + left. by exists err.
    + right. split; [done|]. exists os'. split; [done|]. by right.
  - intros [= <- <-]. right. split; [done|]. exists os. split; [done|]. by left.
Qed.

End EventFile.

End eventfile.

(** ** A small concrete system

    The world is the number of machines handed out so far; a container is
    identified by the number it was created at, a virtual machine by the
    name of its image; errors are messages. *)
Module Demo.

Import exercise.

(** A docker host that knows every image but ["missing"]. *)
Definition flaky_host : DockerHost nat string nat :=
  {| CreateContainer spec w :=
       if String.eqb (docker.Image spec) "missing"
       then (RErr "no such image", w)
       else (ROk w, S w) |}.

(** A docker host that serves every spec. *)
Definition steady_host : DockerHost nat string nat :=
  {| CreateContainer spec w := (ROk w, S w) |}.

(** A network that honours a requested octet and otherwise derives the
    octet from the container. *)
#[export] Instance demo_net : docker.Network nat string nat :=
  {| docker.Connect c ip w :=
       (ROk (match ip with Some d => d | None => Z.of_nat c + 2 end)%Z, w);
     docker.FormatIP d := ("172.16.5." ++ NilZero.string_of_int (Z.to_int d))%string;
     docker.Interface := "vboxnet0" |}.

#[export] Instance demo_lib : vbox.Library nat string string :=
  {| vbox.GetCopy image opts w := (ROk image, S w) |}.

(** Container 1 cannot be stopped and container 2 cannot be released. *)
#[export] Instance demo_containers : virtual.Instance nat string nat :=
  {| virtual.Start c w := (None, w);
     virtual.Stop c w := if Nat.eqb c 1 then (Some "stop timed out", w) else (None, w);
     virtual.Close c w := if Nat.eqb c 2 then (Some "container in use", w) else (None, w) |}.

#[export] Instance demo_vms : virtual.Instance nat string string :=
  {| virtual.Start vm w := (None, w);
     virtual.Stop vm w := (None, w);
     virtual.Close vm w := (None, w) |}.

Definition web : docker.ContainerConfig :=
  {| docker.Image := "nginx"; docker.EnvVars := [("FLAG", "abc")]; docker.DNS := [] |}.

Definition db : docker.ContainerConfig :=
  {| docker.Image := "postgres"; docker.EnvVars := []; docker.DNS := [] |}.

Definition ghost : docker.ContainerConfig :=
  {| docker.Image := "missing"; docker.EnvVars := []; docker.DNS := [] |}.

Definition own_address : RecordConfig :=
  {| RType := "A"; Name := "web.lab"; RData := "" |}.

Definition fixed_address : RecordConfig :=
  {| RType := "A"; Name := "ntp.lab"; RData := "10.0.0.1" |}.

(** A controller as its constructor leaves it. *)
Definition fresh (c : Exercise) : exercise (Container := nat) (VM := string) :=
  {| conf := c; machines := []; ips := None; dnsIP := "172.16.5.3"; dnsRecords := [] |}.

(** Two containers and one virtual machine. *)
Definition lab : Exercise :=
  {| ContainerOpts := ([web; db], [[own_address; fixed_address]; []]);
     VBoxConfig := [{| Image := "kali.ova" |}] |}.

(** The second container cannot be provisioned. *)
Definition broken_lab : Exercise :=
  {| ContainerOpts := ([web; ghost], [[own_address]; []]);
     VBoxConfig := [] |}.

(** One container with one record template. *)
Definition small_lab : Exercise :=
  {| ContainerOpts := ([web], [[own_address]]);
     VBoxConfig := [] |}.

(** A controller whose IP table is shorter than its list of container
    specs. *)
Definition stale : exercise (Container := nat) (VM := string) :=
  {| conf := lab; machines := []; ips := Some [2%Z];
     dnsIP := "172.16.5.3"; dnsRecords := [] |}.

(** A controller that owns three machines. *)
Definition running (ms : list (Machine (Container := nat) (VM := string)))
    : exercise (Container := nat) (VM := string) :=
  {| conf := lab; machines := ms; ips := Some [2%Z; 3%Z];
     dnsIP := "172.16.5.3"; dnsRecords := [] |}.

Definition lab_run := Create (dockerHost := steady_host) (fresh lab) 0.

Definition lab_reset :=
  Reset (dockerHost := steady_host) (state_of lab_run) (world_of lab_run).

Definition broken_run := Create (dockerHost := flaky_host) (fresh broken_lab) 0.

Definition small_run := Create (dockerHost := steady_host) (fresh small_lab) 0.

Definition small_reset :=
  Reset (dockerHost := steady_host) (state_of small_run) (world_of small_run).

Definition stale_run := Create (dockerHost := steady_host) stale 0.

Definition close_run :=
  Close (running [ContainerMachine 0; ContainerMachine 2; VMMachine "kali.ova"]) 6.

Definition restart_run :=
  Restart (running [ContainerMachine 0; ContainerMachine 1; VMMachine "kali.ova"]) 3.

Definition web_record : RecordConfig :=
  {| RType := "A"; Name := "web.lab"; RData := "172.16.5.2" |}.

Lemma steady_host_reliable : docker_reliable (dockerHost := steady_host).
Proof. intros spec w. by exists w, (S w). Qed.

Lemma demo_net_reliable : net_reliable.
Proof. intros c ip w. by eexists _, w. Qed.

Lemma demo_lib_reliable : lib_reliable.
Proof. intros image opts w. by exists image, (S w). Qed.

(** *** The theorems at work *)

Example lab_run_result :
  outcome_of lab_run = Ret tt
  /\ machines (state_of lab_run) = [ContainerMachine 0; ContainerMachine 1; VMMachine "kali.ova"]
  /\ ips (state_of lab_run) = Some [2%Z; 3%Z]
  /\ dnsRecords (state_of lab_run) = [web_record; fixed_address].
Proof. by vm_compute. Qed.

(** C1, the claim as stated fails: the second provisioning call of
    [broken_run] fails after one container was created, and the machine
    list is empty afterwards, not that one container. *)
Lemma Create_failure_forgets_created :
  outcome_of broken_run = Fail "no such image"
  /\ create_calls (calls_of broken_run) !! 1
     = Some (docker.with_DNS ghost ["172.16.5.3"], RErr "no such image")
  /\ created (calls_of broken_run) = [0]
  /\ machines (state_of broken_run) = []
  /\ machines (state_of broken_run) <> [ContainerMachine 0].
Proof. by vm_compute. Qed.

(** The amended C1 on [broken_run]. *)
Lemma Create_failed_provisioning_witness :
  outcome_of broken_run = Fail "no such image"
  /\ length (created (calls_of broken_run)) = 1
  /\ machines (state_of broken_run) = machines (fresh broken_lab)
  /\ ips (state_of broken_run) = ips (fresh broken_lab).
Proof.
  apply (Create_failed_provisioning (dockerHost := flaky_host)
           (fresh broken_lab) 0 _ _ (world_of broken_run) _
           1 (docker.with_DNS ghost ["172.16.5.3"]) "no such image");
    reflexivity.
Defined.

(** C2, the claim as stated fails: the [Create] inside [small_reset] has
    the same container specs and binds the same octet as [small_run], and
    synthesizes one record, yet the record set after it holds that record
    twice: the record of [small_run] is still there. *)
Lemma Reset_duplicates_records :
  outcome_of small_run = Ret tt
  /\ outcome_of small_reset = Ret tt
  /\ conf (state_of small_reset) = conf (state_of small_run)
  /\ connected (calls_of small_run) = [2%Z]
  /\ connected (calls_of small_reset) = [2%Z]
  /\ dnsRecords (state_of small_run) = [web_record]
  /\ synth (connected (calls_of small_reset)) (ContainerOpts small_lab).2 = [web_record]
  /\ dnsRecords (state_of small_reset) = [web_record; web_record].
Proof. by vm_compute. Qed.

(** The amended C2 on [broken_run], which fails after one container. *)
Lemma Create_appends_records_witness :
  dnsRecords (state_of broken_run)
  = dnsRecords (fresh broken_lab)
    ++ synth (connected (calls_of broken_run)) (ContainerOpts (conf (fresh broken_lab))).2.
Proof.
  apply (Create_appends_records (dockerHost := flaky_host)
           (fresh broken_lab) 0 (outcome_of broken_run) _ (world_of broken_run)).
  reflexivity.
Defined.

(** C3 on [lab_run] followed by [lab_reset]. *)
Lemma Reset_keeps_ips_witness :
  ips (state_of lab_reset) = ips (state_of lab_run)
  /\ connect_requests (calls_of lab_reset)
     = match ips (state_of lab_run) with
       | Some t => map Some (take 2 t)
       | None => []
       end.
Proof.
  apply (Reset_keeps_ips (dockerHost := steady_host) (fresh lab) 0
           (state_of lab_run) (world_of lab_run) (calls_of lab_run)
           (state_of lab_reset) (world_of lab_reset) (calls_of lab_reset));
    reflexivity.
Defined.

(** C4 on [lab_run]: two containers, then one virtual machine. *)
Lemma Create_all_succeed_witness :
  outcome_of lab_run = Ret tt
  /\ machines (state_of lab_run)
     = map ContainerMachine (created (calls_of lab_run))
       ++ map VMMachine (copied (calls_of lab_run))
  /\ length (created (calls_of lab_run)) = 2
  /\ length (copied (calls_of lab_run)) = 1
  /\ length (machines (state_of lab_run)) = 2 + 1
  /\ create_calls (calls_of lab_run)
     = served "172.16.5.3" [web; db] (created (calls_of lab_run))
  /\ copy_calls (calls_of lab_run)
     = cloned [{| Image := "kali.ova" |}] (copied (calls_of lab_run)).
Proof.
  apply (Create_all_succeed (dockerHost := steady_host) (fresh lab) 0
           (outcome_of lab_run) (state_of lab_run) (world_of lab_run)
           (calls_of lab_run)).
  - exact steady_host_reliable.
  - exact demo_net_reliable.
  - exact demo_lib_reliable.
  - exact I.
  - simpl. lia.
  - reflexivity.
Defined.

(** C5 on [lab_run]. *)
Lemma Create_fills_targets_witness :
  length (connected (calls_of lab_run)) = 2
  /\ (ips (fresh lab) = None -> connected (calls_of lab_run) <> [] ->
      ips (state_of lab_run) = Some (connected (calls_of lab_run)))
  /\ dnsRecords (state_of lab_run)
     = [] ++ concat (zip_with (fun d rs => map (fill_RData (docker.FormatIP d)) rs)
                       (connected (calls_of lab_run))
                       [[own_address; fixed_address]; []])
  /\ (forall ipaddr r, RData r = EmptyString ->
        fill_RData ipaddr r
        = {| RType := RType r; Name := Name r; RData := ipaddr |})
  /\ (forall ipaddr r, RData r <> EmptyString -> fill_RData ipaddr r = r).
Proof.
  apply (Create_fills_targets (dockerHost := steady_host) (fresh lab) 0
           (state_of lab_run) (world_of lab_run) (calls_of lab_run)).
  reflexivity.
Defined.

Example close_run_result :
  outcome_of close_run = Fail "container in use"
  /\ calls_of close_run
     = [EvClose (ContainerMachine 0) None;
        EvClose (ContainerMachine 2) (Some "container in use")]
  /\ machines (state_of close_run)
     = [ContainerMachine 0; ContainerMachine 2; VMMachine "kali.ova"].
Proof. by vm_compute. Qed.

(** C6 on [close_run], where the second release fails. *)
Lemma Close_fail_fast_witness :
  (outcome_of close_run = Ret tt
   /\ all_nil virtual.Close virtual.Close
        [ContainerMachine 0; ContainerMachine 2; VMMachine "kali.ova"]
        6 (world_of close_run)
   /\ calls_of close_run
      = map (fun m => EvClose m None)
          [ContainerMachine 0; ContainerMachine 2; VMMachine "kali.ova"]
   /\ machines (state_of close_run) = [])
  \/ (exists pre m post err wk,
        [ContainerMachine 0; ContainerMachine 2; VMMachine "kali.ova"] = pre ++ m :: post
        /\ all_nil virtual.Close virtual.Close pre 6 wk
        /\ refuses virtual.Close virtual.Close m wk err (world_of close_run)
        /\ calls_of close_run
           = map (fun m => EvClose m None) pre ++ [EvClose m (Some err)]
        /\ outcome_of close_run = Fail err
        /\ machines (state_of close_run)
           = [ContainerMachine 0; ContainerMachine 2; VMMachine "kali.ova"]).
Proof.
  apply (Close_fail_fast
           (running [ContainerMachine 0; ContainerMachine 2; VMMachine "kali.ova"]) 6
           (outcome_of close_run) (state_of close_run) (world_of close_run)
           (calls_of close_run)).
  reflexivity.
Defined.

Example restart_run_result :
  outcome_of restart_run = Fail "stop timed out"
  /\ calls_of restart_run
     = [EvStop (ContainerMachine 0) None;
        EvStop (ContainerMachine 1) (Some "stop timed out")].
Proof. by vm_compute. Qed.

(** C7 on [restart_run], where the second stop fails. *)
Lemma Restart_stops_before_starts_witness :
  exists stops starts,
    calls_of restart_run = stops ++ starts
    /\ Forall (fun ev => is_stop ev = true) stops
    /\ Forall (fun ev => is_start ev = true) starts
    /\ (starts <> [] ->
        stops = map (fun m => EvStop m None)
                  [ContainerMachine 0; ContainerMachine 1; VMMachine "kali.ova"])
    /\ (forall m err, In (EvStop m (Some err)) (calls_of restart_run) ->
          outcome_of restart_run = Fail err /\ starts = []).
Proof.
  apply (Restart_stops_before_starts
           (running [ContainerMachine 0; ContainerMachine 1; VMMachine "kali.ova"]) 3
           (outcome_of restart_run) (state_of restart_run) (world_of restart_run)
           (calls_of restart_run)).
  reflexivity.
Defined.

Example stale_run_result :
  outcome_of stale_run = Panic (IpsAt 1)
  /\ created (calls_of stale_run) = [0; 1]
  /\ machines (state_of stale_run) = [].
Proof. by vm_compute. Qed.

(** C10 on [stale_run]: a table of one octet for two container specs. *)
Lemma Create_ips_indexing_witness :
  (1 = 2 -> forall j, outcome_of stale_run <> Panic (IpsAt j))
  /\ (1 < 2 ->
        outcome_of stale_run <> Ret tt
        /\ (forall j, outcome_of stale_run = Panic (IpsAt j) -> j = 1)
        /\ (docker_reliable (dockerHost := steady_host) -> net_reliable ->
            1 <= 2 ->
            outcome_of stale_run = Panic (IpsAt 1)
            /\ machines (state_of stale_run) = machines stale
            /\ ips (state_of stale_run) = ips stale)).
Proof.
  apply (Create_ips_indexing (dockerHost := steady_host) stale 0 [2%Z]
           (outcome_of stale_run) (state_of stale_run) (world_of stale_run)
           (calls_of stale_run));
    reflexivity.
Defined.

(** An event store whose second hook refuses every capacity above 10. *)
Definition event : store.EventConfig (InstanceConfig := string) :=
  {| store.Name := "Summer school"; store.Tag := "summer"; store.Available := 5;
     store.Capacity := 10;
     store.Lab_ := {| store.Frontends := ["kali"]; store.Exercises := ["sql"] |};
     store.StartedAt := Some 17%Z; store.FinishExpected := None;
     store.FinishedAt := None |}.

Definition save : store.Hook (W := nat) (Error := string) (InstanceConfig := string) :=
  fun c w => (None, S w).

Definition limit : store.Hook (W := nat) (Error := string) (InstanceConfig := string) :=
  fun c w => if (10 <? store.Capacity c)%Z then (Some "too many", w) else (None, w).

Example SetCapacity_result :
  store.SetCapacity 20 (store.NewEventConfigStore event [save; limit; save]) 0
  = (Some "too many",
     store.NewEventConfigStore (store.set_Capacity 20 event) [save; limit; save],
     1,
     [ {| store.position := 0; store.given := store.set_Capacity 20 event;
          store.returned := None |};
       {| store.position := 1; store.given := store.set_Capacity 20 event;
          store.returned := Some "too many" |} ]).
Proof. reflexivity. Qed.

Example Finish_result :
  store.Finish 99 (store.NewEventConfigStore event [save; limit; save]) 0
  = (None,
     store.NewEventConfigStore (store.set_FinishedAt 99 event) [save; limit; save],
     2,
     store.quiet_calls 0 3 (store.set_FinishedAt 99 event)).
Proof. reflexivity. Qed.

(** *** Further properties at work: the controller *)

Definition three_machines : list (Machine (Container := nat) (VM := string)) :=
  [ContainerMachine 0; ContainerMachine 1; VMMachine "kali.ova"].

Definition start_run := Start (running three_machines) 3.

Definition stop_run := Stop (running three_machines) 3.

Definition closed_run := Close (state_of lab_run) (world_of lab_run).

Definition recreate_run := Create (dockerHost := steady_host) (running three_machines) 3.

Definition failing_reset :=
  Reset (dockerHost := flaky_host)
    {| conf := broken_lab; machines := [ContainerMachine 0]; ips := None;
       dnsIP := "172.16.5.3"; dnsRecords := [] |} 1.

Definition busy_day : list (M (W := nat) (Error := string) unit) :=
  [Create (dockerHost := flaky_host); Reset (dockerHost := flaky_host);
   Restart; Close; Create (dockerHost := flaky_host)].

Example start_run_result :
  outcome_of start_run = Ret tt
  /\ calls_of start_run = map (fun m => EvStart m None) three_machines.
Proof. by vm_compute. Qed.

(** X1 on [start_run], where every start succeeds. *)
Lemma Start_fail_fast_witness :
  state_of start_run = running three_machines
  /\ ((outcome_of start_run = Ret tt
       /\ all_nil virtual.Start virtual.Start three_machines 3 (world_of start_run)
       /\ calls_of start_run = map (fun m => EvStart m None) three_machines)
      \/ (exists pre m post err wk,
            three_machines = pre ++ m :: post
            /\ all_nil virtual.Start virtual.Start pre 3 wk
            /\ refuses virtual.Start virtual.Start m wk err (world_of start_run)
            /\ calls_of start_run
               = map (fun m => EvStart m None) pre ++ [EvStart m (Some err)]
            /\ outcome_of start_run = Fail err)).
Proof.
  apply (Start_fail_fast (running three_machines) 3 (outcome_of start_run)
           (state_of start_run) (world_of start_run) (calls_of start_run)).
  reflexivity.
Defined.

Example stop_run_result :
  outcome_of stop_run = Fail "stop timed out"
  /\ calls_of stop_run
     = [EvStop (ContainerMachine 0) None;
        EvStop (ContainerMachine 1) (Some "stop timed out")].
Proof. by vm_compute. Qed.

(** X2 on [stop_run], where the second stop fails. *)
Lemma Stop_fail_fast_witness :
  state_of stop_run = running three_machines
  /\ ((outcome_of stop_run = Ret tt
       /\ all_nil virtual.Stop virtual.Stop three_machines 3 (world_of stop_run)
       /\ calls_of stop_run = map (fun m => EvStop m None) three_machines)
      \/ (exists pre m post err wk,
            three_machines = pre ++ m :: post
            /\ all_nil virtual.Stop virtual.Stop pre 3 wk
            /\ refuses virtual.Stop virtual.Stop m wk err (world_of stop_run)
            /\ calls_of stop_run
               = map (fun m => EvStop m None) pre ++ [EvStop m (Some err)]
            /\ outcome_of stop_run = Fail err)).
Proof.
  apply (Stop_fail_fast (running three_machines) 3 (outcome_of stop_run)
           (state_of stop_run) (world_of stop_run) (calls_of stop_run)).
  reflexivity.
Defined.

(** X3 on the controller of [lab_run] once closed. *)
Lemma closed_controller_is_idle_witness :
  Start (state_of closed_run) 7 = (Ret tt, state_of closed_run, 7, [])
  /\ Stop (state_of closed_run) 7 = (Ret tt, state_of closed_run, 7, [])
  /\ Restart (state_of closed_run) 7 = (Ret tt, state_of closed_run, 7, [])
  /\ Close (state_of closed_run) 7 = (Ret tt, state_of closed_run, 7, []).
Proof.
  apply (closed_controller_is_idle (state_of lab_run) (world_of lab_run)
           (state_of closed_run) (world_of closed_run) (calls_of closed_run) 7).
  reflexivity.
Defined.

(** X4 on [recreate_run]: a second [Create] without a [Close] in between. *)
Lemma Create_replaces_machines_witness :
  Forall (fun ev => is_instance_call ev = false) (calls_of recreate_run)
  /\ (outcome_of recreate_run = Ret tt ->
      machines (state_of recreate_run)
      = map ContainerMachine (created (calls_of recreate_run))
        ++ map VMMachine (copied (calls_of recreate_run))
      /\ length (machines (state_of recreate_run)) = 2 + 1
      /\ create_calls (calls_of recreate_run)
         = served "172.16.5.3" [web; db] (created (calls_of recreate_run))
      /\ copy_calls (calls_of recreate_run)
         = cloned [{| Image := "kali.ova" |}] (copied (calls_of recreate_run))).
Proof.
  apply (Create_replaces_machines (dockerHost := steady_host)
           (running three_machines) 3 (outcome_of recreate_run)
           (state_of recreate_run) (world_of recreate_run) (calls_of recreate_run)).
  reflexivity.
Defined.

Example recreate_run_result :
  machines (state_of recreate_run)
  = [ContainerMachine 3; ContainerMachine 4; VMMachine "kali.ova"].
Proof. reflexivity. Qed.

(** X5 on [broken_run]. *)
Lemma Create_abort_keeps_state_witness :
  machines (state_of broken_run) = machines (fresh broken_lab)
  /\ ips (state_of broken_run) = ips (fresh broken_lab)
  /\ conf (state_of broken_run) = conf (fresh broken_lab)
  /\ dnsIP (state_of broken_run) = dnsIP (fresh broken_lab).
Proof.
  apply (Create_abort_keeps_state (dockerHost := flaky_host) (fresh broken_lab) 0
           (outcome_of broken_run) (state_of broken_run) (world_of broken_run)
           (calls_of broken_run)); [reflexivity|].
  vm_compute. discriminate.
Defined.

(** X6 on [recreate_run], whose table is [[2; 3]]. *)
Lemma Create_reuses_octets_witness :
  connect_requests (calls_of recreate_run) = map Some (take 2 [2%Z; 3%Z])
  /\ ips (state_of recreate_run) = Some [2%Z; 3%Z].
Proof.
  apply (Create_reuses_octets (dockerHost := steady_host)
           (running three_machines) 3 (state_of recreate_run)
           (world_of recreate_run) (calls_of recreate_run)).
  reflexivity.
Defined.

Example failing_reset_result :
  outcome_of failing_reset = Fail "no such image"
  /\ machines (state_of failing_reset) = []
  /\ created (calls_of failing_reset) = [1].
Proof. by vm_compute. Qed.

(** X7 on [failing_reset], whose [Create] fails. *)
Lemma Reset_phases_witness :
  (exists pre m post err,
     [ContainerMachine 0] = pre ++ m :: post
     /\ calls_of failing_reset
        = map (fun m => EvClose m None) pre ++ [EvClose m (Some err)]
     /\ outcome_of failing_reset = Fail err
     /\ state_of failing_reset
        = {| conf := broken_lab; machines := [ContainerMachine 0]; ips := None;
             dnsIP := "172.16.5.3"; dnsRecords := [] |})
  \/ (exists wa oc eb wb lb,
        Close {| conf := broken_lab; machines := [ContainerMachine 0]; ips := None;
                 dnsIP := "172.16.5.3"; dnsRecords := [] |} 1
        = (Ret tt, fresh broken_lab, wa,
           map (fun m => EvClose m None) [ContainerMachine 0])
        /\ Create (dockerHost := flaky_host) (fresh broken_lab) wa = (oc, eb, wb, lb)
        /\ ((oc <> Ret tt
             /\ outcome_of failing_reset = oc /\ state_of failing_reset = eb
             /\ world_of failing_reset = wb
             /\ calls_of failing_reset
                = map (fun m => EvClose m None) [ContainerMachine 0] ++ lb
             /\ machines (state_of failing_reset) = []
             /\ ips (state_of failing_reset) = None)
            \/ (oc = Ret tt
                /\ exists ls,
                     Start eb wb
                     = (outcome_of failing_reset, state_of failing_reset,
                        world_of failing_reset, ls)
                     /\ state_of failing_reset = eb
                     /\ calls_of failing_reset
                        = map (fun m => EvClose m None) [ContainerMachine 0]
                          ++ lb ++ ls))).
Proof.
  apply (Reset_phases (dockerHost := flaky_host)
           {| conf := broken_lab; machines := [ContainerMachine 0]; ips := None;
              dnsIP := "172.16.5.3"; dnsRecords := [] |} 1
           (outcome_of failing_reset) (state_of failing_reset)
           (world_of failing_reset) (calls_of failing_reset)).
  reflexivity.
Defined.

(** X8 on [busy_day], run on a new controller for [lab]. *)
Lemma lifecycle_never_indexes_out_of_range_witness :
  Forall (fun out => forall j, out <> Panic (IpsAt j))
    (run_all busy_day (fresh lab) 0).1.1
  /\ ips_aligned (run_all busy_day (fresh lab) 0).1.2.
Proof.
  apply (lifecycle_never_indexes_out_of_range (dockerHost := flaky_host)
           busy_day (fresh lab) 0).
  - repeat constructor; simpl; tauto.
  - exact I.
Defined.

(** X9 on the [Reset] of [small_reset]. *)
Lemma lifecycle_keeps_records_witness :
  dnsRecords (state_of small_run) `prefix_of` dnsRecords (state_of small_reset)
  /\ (In (Reset (dockerHost := steady_host)) [Start; Stop; Close; Restart] ->
      dnsRecords (state_of small_reset) = dnsRecords (state_of small_run)).
Proof.
  apply (lifecycle_keeps_records (dockerHost := steady_host)
           (Reset (dockerHost := steady_host)) (state_of small_run)
           (world_of small_run)).
  simpl. tauto.
Defined.

(** *** Further properties at work: the event file

    The operating system is the list of the paths that exist and a clock;
    a path below [/ro] cannot be written or created. *)

Record Disk := {
  existing : list string;
  clock : Z
}.

Definition on_disk (p : string) (os : Disk) : bool :=
  existsb (String.eqb p) (existing os).

Definition with_path (p : string) (os : Disk) : Disk :=
  {| existing := p :: existing os; clock := clock os |}.

#[export] Instance demo_files : eventfile.Files Disk string string :=
  {| eventfile.WriteFile p bytes os :=
       if String.prefix "/ro" p then (Some "read-only file system", os)
       else (None, with_path p os);
     eventfile.Remove p os :=
       if on_disk p os
       then (None, {| existing := filter (fun q => negb (String.eqb p q)) (existing os);
                      clock := clock os |})
       else (Some "no such file", os);
     eventfile.MkdirAll p os :=
       if String.prefix "/ro" p then (Some "read-only file system", os)
       else (None, with_path p os);
     eventfile.NotExist p os := negb (on_disk p os);
     eventfile.Join a b := (a +:+ "/" +:+ b)%string;
     eventfile.Now os := (clock os, {| existing := existing os; clock := clock os + 1 |});
     eventfile.Format t := "30-10-26" |}.

(** The serialization only has to tell files apart: the name of the event
    and the number of teams. *)
#[export] Instance demo_yaml
    : eventfile.Yaml string string (eventfile.RawEventFile (InstanceConfig := string)) :=
  {| eventfile.Marshal f :=
       ROk (store.Name (eventfile.EventConfig_ f) +:+ ":"
            +:+ eventfile.decimal (length (eventfile.Teams f)))%string |}.

#[export] Instance demo_teams : eventfile.TeamView (string * string) :=
  {| eventfile.ID t := t.1;
     eventfile.Email t := (t.1 +:+ "@example.org")%string;
     eventfile.TeamName t := t.2;
     eventfile.GetHashedPassword t := "$2a$10$hash" |}.

(** Today's first two names for the tag [ctf] are taken. *)
Definition crowded : Disk :=
  {| existing := ["/events/ctf-30-10-26.yml"; "/events/ctf-30-10-26-1"]; clock := 41 |}.

Definition name_run := eventfile.getFileNameForEvent "/events" "ctf" crowded.

Example name_run_result :
  name_run.1 = ROk "ctf-30-10-26-2.yml".
Proof. by vm_compute. Qed.

(** X12 on [name_run]. *)
Lemma getFileNameForEvent_first_fit_witness :
  let base := ("ctf" +:+ "-" +:+ eventfile.Format (eventfile.Now crowded).1)%string in
  name_run.2 = (eventfile.Now crowded).2
  /\ ((eventfile.free "/events" base name_run.2 = true
       /\ name_run.1 = ROk (base +:+ ".yml"))
      \/ (eventfile.free "/events" base name_run.2 = false
          /\ exists i, 1 <= i <= 998
               /\ eventfile.free "/events" (base +:+ "-" +:+ eventfile.decimal i)
                    name_run.2 = true
               /\ (forall j, 1 <= j < i ->
                     eventfile.free "/events" (base +:+ "-" +:+ eventfile.decimal j)
                       name_run.2 = false)
               /\ name_run.1 = ROk ((base +:+ "-" +:+ eventfile.decimal i) +:+ ".yml"))
      \/ (eventfile.free "/events" base name_run.2 = false
          /\ (forall j, 1 <= j <= 998 ->
                eventfile.free "/events" (base +:+ "-" +:+ eventfile.decimal j)
                  name_run.2 = false)
          /\ name_run.1 = RErr "unable to get filename for event")).
Proof.
  apply (eventfile.getFileNameForEvent_first_fit "/events" "ctf" crowded
           name_run.1 name_run.2).
  by vm_compute.
Defined.

(** X13 on [name_run]. *)
Lemma getFileNameForEvent_archive_dir_free_witness :
  "ctf-30-10-26-2.yml"
  = (eventfile.relativeDir "ctf-30-10-26-2.yml" +:+ ".yml")%string
  /\ eventfile.NotExist (eventfile.Join "/events" "ctf-30-10-26-2.yml") name_run.2 = true
  /\ eventfile.NotExist
       (eventfile.Join "/events" (eventfile.relativeDir "ctf-30-10-26-2.yml"))
       name_run.2 = true.
Proof.
  apply (eventfile.getFileNameForEvent_archive_dir_free "/events" "ctf" crowded
           "ctf-30-10-26-2.yml" name_run.2).
  by vm_compute.
Defined.

Definition old_team : eventfile.Team :=
  {| eventfile.Id := "t0"; eventfile.TEmail := "old@example.org";
     eventfile.Name := "veterans"; eventfile.HashedPassword := "$2a$10$old";
     eventfile.SolvedChallenges :=
       [{| eventfile.OwnerID := "t0"; eventfile.FlagTag := "sql";
           eventfile.FlagValue := "abc"; eventfile.CompletedAt := Some 7%Z |}];
     eventfile.Metadata := [("room", "B2")]; eventfile.CreatedAt := Some 1%Z;
     eventfile.ChalMap := []; eventfile.AccessedAt := None |}.

Definition summer_file : eventfile.RawEventFile (InstanceConfig := string) :=
  {| eventfile.EventConfig_ := event; eventfile.Teams := [old_team] |}.

Definition summer : eventfile.eventfile (InstanceConfig := string) :=
  {| eventfile.file := summer_file; eventfile.dir := "/events";
     eventfile.filename := "summer-30-10-26.yml" |}.

Definition empty_disk : Disk := {| existing := []; clock := 100 |}.

Definition teams_run :=
  eventfile.saveTeams [("t1", "red"); ("t2", "blue")] summer empty_disk.

Example teams_run_result :
  map eventfile.Name (eventfile.Teams (eventfile.file teams_run.1.2)) = ["red"; "blue"]
  /\ map eventfile.AccessedAt (eventfile.Teams (eventfile.file teams_run.1.2))
     = [Some 100%Z; Some 101%Z]
  /\ existing teams_run.2 = ["/events/summer-30-10-26.yml"].
Proof. by vm_compute. Qed.

(** X14 on [teams_run]: the clock reads 100, then 101. *)
Lemma saveTeams_stores_witness :
  eventfile.Teams (eventfile.file teams_run.1.2)
  = zip_with eventfile.stored_team [("t1", "red"); ("t2", "blue")]
      (eventfile.readings 2 empty_disk).1
  /\ map eventfile.AccessedAt (eventfile.Teams (eventfile.file teams_run.1.2))
     = map Some (eventfile.readings 2 empty_disk).1
  /\ length (eventfile.readings 2 empty_disk).1 = 2
  /\ map eventfile.Id (eventfile.Teams (eventfile.file teams_run.1.2))
     = map eventfile.ID [("t1", "red"); ("t2", "blue")]
  /\ Forall (fun t => eventfile.SolvedChallenges t = [] /\ eventfile.Metadata t = []
                      /\ eventfile.CreatedAt t = None)
       (eventfile.Teams (eventfile.file teams_run.1.2))
  /\ eventfile.EventConfig_ (eventfile.file teams_run.1.2) = event
  /\ eventfile.dir teams_run.1.2 = "/events"
  /\ eventfile.filename teams_run.1.2 = "summer-30-10-26.yml"
  /\ (teams_run.1.1, teams_run.2)
     = eventfile.save teams_run.1.2 (eventfile.readings 2 empty_disk).2.
Proof.
  apply (eventfile.saveTeams_stores [("t1", "red"); ("t2", "blue")] summer empty_disk
           teams_run.1.1 teams_run.1.2 teams_run.2).
  reflexivity.
Defined.

(** The same event file below a directory that cannot be written. *)
Definition locked : eventfile.eventfile (InstanceConfig := string) :=
  {| eventfile.file := summer_file; eventfile.dir := "/ro/events";
     eventfile.filename := "summer-30-10-26.yml" |}.

Definition locked_store :=
  (eventfile.NewEventFile "/ro/events" "summer-30-10-26.yml" summer_file).2.

Definition capacity_run :=
  eventfile.call (eventfile.CallSetCapacity 25) locked_store (locked, empty_disk).

Example capacity_run_result :
  capacity_run.1.1 = Some "read-only file system"
  /\ store.Capacity (store.Read capacity_run.1.2) = 25%Z
  /\ store.Capacity (eventfile.EventConfig_ (eventfile.file capacity_run.2.1)) = 25%Z
  /\ capacity_run.2.2 = empty_disk.
Proof. by vm_compute. Qed.

(** X16 on [capacity_run], where the write fails. *)
Lemma config_call_saves_event_file_witness :
  let updated := store.set_Capacity 25 (store.conf locked_store) in
  store.Read capacity_run.1.2 = updated
  /\ capacity_run.2.1 = eventfile.set_EventConfig updated locked
  /\ (capacity_run.1.1, capacity_run.2.2)
     = eventfile.save (eventfile.set_EventConfig updated locked) empty_disk.
Proof.
  apply (eventfile.config_call_saves_event_file (eventfile.CallSetCapacity 25)
           locked_store locked empty_disk
           capacity_run.1.1 capacity_run.1.2 capacity_run.2.1 capacity_run.2.2);
    reflexivity.
Defined.

(** The event file is on disk, its archive directory is not. *)
Definition stored : Disk :=
  {| existing := ["/events/summer-30-10-26.yml"]; clock := 200 |}.

Definition archive_run := eventfile.Archive summer stored.

Example archive_run_result :
  archive_run = (None, {| existing := ["/events/summer-30-10-26"]; clock := 200 |}).
Proof. by vm_compute. Qed.

Example archive_locked_result :
  eventfile.Archive locked stored = (Some "read-only file system", stored).
Proof. by vm_compute. Qed.

(** X17 on [archive_run]. *)
Lemma Archive_reports_only_mkdir_witness :
  (exists err,
     archive_run.1 = Some err
     /\ eventfile.NotExist
          (eventfile.Join "/events" (eventfile.relativeDir "summer-30-10-26.yml"))
          stored = true
     /\ eventfile.MkdirAll
          (eventfile.Join "/events" (eventfile.relativeDir "summer-30-10-26.yml"))
          stored = (Some err, archive_run.2))
  \/ (archive_run.1 = None
      /\ exists os0,
           archive_run.2
           = (eventfile.Remove (eventfile.Join "/events" "summer-30-10-26.yml") os0).2
           /\ (eventfile.NotExist
                 (eventfile.Join "/events" (eventfile.relativeDir "summer-30-10-26.yml"))
                 stored = false
               /\ os0 = stored
               \/ eventfile.NotExist
                    (eventfile.Join "/events"
                       (eventfile.relativeDir "summer-30-10-26.yml"))
                    stored = true
                  /\ eventfile.MkdirAll
                       (eventfile.Join "/events"
                          (eventfile.relativeDir "summer-30-10-26.yml"))
                       stored = (None, os0))).
Proof.
  apply (eventfile.Archive_reports_only_mkdir summer stored archive_run.1 archive_run.2).
  reflexivity.
Defined.

(** C9 on a store whose second hook refuses the new capacity. *)
Lemma hooks_run_after_mutation_witness :
  store.notified (store.NewEventConfigStore event [save; limit; save]) 0
    (store.set_Capacity 20 event)
    (store.SetCapacity 20 (store.NewEventConfigStore event [save; limit; save]) 0)
  /\ store.notified (store.NewEventConfigStore event [save; limit; save]) 0
       (store.set_FinishedAt 99 event)
       (store.Finish 99 (store.NewEventConfigStore event [save; limit; save]) 0).
Proof.
  apply (store.hooks_run_after_mutation
           (store.NewEventConfigStore event [save; limit; save]) 0 20 99).
Defined.

End Demo.
